(** * Balanced ternary: trits and sequences of trits

    A shallow embedding of [trit.py] (and of [btern.py], whose [Trit] class is
    the same code) together with the properties claimed for it.

    Conventions of the embedding:
    - a Python [str] is the list of its Unicode code points;
    - a Python [int] is a [Z];
    - a raised exception is the [Raise] branch of [result];
    - [math.log] works on binary64 numbers: the conversion of the integer
      argument to binary64 is modelled exactly ([to_double]), and the
      floating-point logarithm, quotient and ceiling that follow are a
      parameter of the development ([ceil_log3_float]). *)

From Stdlib Require Import String Ascii ZArith List Bool Lia.
Import ListNotations.
Local Open Scope Z_scope.

(** ** Python strings *)

Definition pystr := list Z.

(** The code points of an ASCII literal. *)
Definition u (s : string) : pystr :=
  map (fun a => Z.of_N (N_of_ascii a)) (list_ascii_of_string s).

Fixpoint str_eqb (a b : pystr) : bool :=
  match a, b with
  | [], [] => true
  | x :: a', y :: b' => (x =? y) && str_eqb a' b'
  | _, _ => false
  end.

(** The code points [str.strip()] removes when called without argument. *)
Definition isspace (c : Z) : bool :=
  ((9 <=? c) && (c <=? 13)) || ((28 <=? c) && (c <=? 32))
  || (c =? 133) || (c =? 160) || (c =? 5760)
  || ((8192 <=? c) && (c <=? 8202))
  || (c =? 8232) || (c =? 8233) || (c =? 8239) || (c =? 8287) || (c =? 12288).

Fixpoint lstrip (s : pystr) : pystr :=
  match s with
  | [] => []
  | c :: r => if isspace c then lstrip r else s
  end.

Definition rstrip (s : pystr) : pystr := rev (lstrip (rev s)).

Definition strip (s : pystr) : pystr := rstrip (lstrip s).

(** A [dict] with string keys, as the literal lists its items. *)
Fixpoint dict_get {V : Type} (d : list (pystr * V)) (k : pystr) : option V :=
  match d with
  | [] => None
  | (k', v) :: d' => if str_eqb k' k then Some v else dict_get d' k
  end.

(** ** Module constants *)

(** [NEG], [ZERO], [POS]: the three glyphs. *)
Inductive glyph : Type := NEG | ZERO | POS.

Definition glyph_text (g : glyph) : pystr :=
  match g with
  | NEG => u "-"
  | ZERO => u "0"
  | POS => u "+"
  end.

Definition GLYPHS : list glyph := [NEG; ZERO; POS].

Definition INTEGERS (g : glyph) : Z :=
  match g with
  | NEG => -1
  | ZERO => 0
  | POS => 1
  end.

(** U+2717 BALLOT X and U+2713 CHECK MARK. *)
Definition ballot_x : pystr := [10007].
Definition check_mark : pystr := [10003].

Definition INPUTS : list (pystr * glyph) :=
  [ (glyph_text NEG, NEG);
    (u "-1", NEG);
    (ballot_x, NEG);
    (glyph_text ZERO, ZERO);
    ([], ZERO);
    (u "=", ZERO);
    (u "N", ZERO);
    (u "n", ZERO);
    (u "Z", ZERO);
    (u "z", ZERO);
    (glyph_text POS, POS);
    (u "1", POS);
    (check_mark, POS) ].

(** ** Exceptions *)

Inductive result (E A : Type) : Type :=
| Ok (a : A)
| Raise (e : E).
Arguments Ok {E A} a.
Arguments Raise {E A} e.

Definition bind {E A B : Type} (m : result E A) (k : A -> result E B) : result E B :=
  match m with
  | Ok a => k a
  | Raise e => Raise e
  end.

Notation "x <- m ;; k" := (bind m (fun x => k))
  (at level 61, m at next level, right associativity).

Fixpoint mapM {E A B : Type} (f : A -> result E B) (l : list A) : result E (list B) :=
  match l with
  | [] => Ok []
  | x :: r => y <- f x ;; ys <- mapM f r ;; Ok (y :: ys)
  end.

(** ** Class [Trit] *)

(** A [Trit] object: [value] is its glyph, and its attribute [integer] is
    [INTEGERS[value]], fixed by [__init__]. *)
Record Trit : Type := Trit_new { value : glyph }.

(** [TRITS = {x: Trit(x) for x in (NEG, ZERO, POS)}] *)
Definition TRITS (g : glyph) : Trit := Trit_new g.

(** [Trit.__int__] *)
Definition Trit_int (self : Trit) : Z := INTEGERS (value self).

(** [Trit.__str__] *)
Definition Trit_str (self : Trit) : pystr := glyph_text (value self).

Definition glyph_eqb (a b : glyph) : bool :=
  match a, b with
  | NEG, NEG | ZERO, ZERO | POS, POS => true
  | _, _ => false
  end.

(** [Trit.__eq__] *)
Definition Trit_eq (self other : Trit) : bool := glyph_eqb (value self) (value other).

(** [Trit.__lt__], [Trit.__gt__] *)
Definition Trit_lt (self other : Trit) : bool := Trit_int self <? Trit_int other.
Definition Trit_gt (self other : Trit) : bool := Trit_int other <? Trit_int self.

(** The arguments [Trit.make] distinguishes: a [Trit]; a Python integer
    [VReal x], which both files send through the sign branch ([float] and
    the other number types are not modelled); [None]; and anything else
    through its [str], here a string. *)
Inductive pyvalue : Type :=
| VTrit (t : Trit)
| VReal (x : Z)
| VNone
| VStr (s : pystr).

(** The two messages a [ValueError] of this module carries, each with the
    value it formats: ["Failed to parse {0!r} as a trit."] and
    ["Invalid length argument '{!r}'."]. *)
Inductive message : Type :=
| FailedToParse (v : pyvalue)
| InvalidLengthArgument (l : Z).

Inductive exn : Type :=
| ValueError (m : message).

Definition res := result exn.

(** [Trit.make] *)
Definition Trit_make (v : pyvalue) : res Trit :=
  match v with
  | VTrit t => Ok t
  | VReal x =>
      if x =? 0 then Ok (TRITS ZERO)
      else if x >? 0 then Ok (TRITS POS)
      else Ok (TRITS NEG)
  | VNone => Ok (TRITS ZERO)
  | VStr s =>
      let text := strip s in
      match dict_get INPUTS text with
      | Some g => Ok (TRITS g)
      | None => Raise (ValueError (FailedToParse v))
      end
  end.

(** [Trit.__neg__] *)
Definition Trit_neg (self : Trit) : Trit :=
  match value self with
  | NEG => TRITS POS
  | POS => TRITS NEG
  | ZERO => TRITS ZERO
  end.

(** [Trit.__abs__] *)
Definition Trit_abs (self : Trit) : Trit :=
  match value self with
  | NEG => TRITS POS
  | _ => self
  end.

(** [Trit.__and__], [Trit.__or__], [Trit.__xor__] *)
Definition Trit_and (self other : Trit) : Trit :=
  if glyph_eqb NEG (value self) || glyph_eqb NEG (value other) then TRITS NEG
  else if glyph_eqb (value self) POS && glyph_eqb (value other) POS then TRITS POS
  else TRITS ZERO.

Definition Trit_or (self other : Trit) : Trit :=
  if glyph_eqb POS (value self) || glyph_eqb POS (value other) then TRITS POS
  else if glyph_eqb (value self) NEG && glyph_eqb (value other) NEG then TRITS NEG
  else TRITS ZERO.

Definition Trit_xor (self other : Trit) : Trit :=
  if glyph_eqb ZERO (value self) || glyph_eqb ZERO (value other) then TRITS ZERO
  else if negb (glyph_eqb (value self) (value other)) then TRITS POS
  else TRITS NEG.

(** [Trit.add]: the pair [(result, carry)]. *)
Definition Trit_add (self other : Trit) : Trit * Trit :=
  let carry := TRITS ZERO in
  if glyph_eqb (value self) ZERO then (other, carry)
  else if glyph_eqb (value other) ZERO then (self, carry)
  else if Trit_eq self other then (Trit_neg self, self)
  else (TRITS ZERO, carry).

(** ** Class [Trits] *)

(** A [Trits] object: the list [trits] and the two attributes [__init__]
    derives from it. *)
Record Trits : Type := Trits_obj {
  trits : list Trit;
  string : pystr;
  integer : Z
}.

(** [len(x)] of a list, as a Python integer. *)
Definition len {A : Type} (l : list A) : Z := Z.of_nat (List.length l).

(** [Trits.__len__] *)
Definition Trits_len (self : Trits) : Z := len (trits self).

(** [l[start:]]: a negative [start] counts from the end, and both ends clamp. *)
Definition slice_from {A : Type} (start : Z) (l : list A) : list A :=
  let n := len l in
  let i := if start <? 0 then Z.max (start + n) 0 else Z.min start n in
  skipn (Z.to_nat i) l.

(** [''.join([str(x) for x in self.trits])] *)
Definition join_str (ts : list Trit) : pystr := List.concat (map Trit_str ts).

(** The loop of [__init__] that sums the decoded integer: one step for the
    index [i] of [range(len(self))]. *)
Definition decode_step (ts : list Trit) (acc : Z) (i : nat) : Z :=
  let t := nth i ts (TRITS ZERO) in
  if Trit_eq t (TRITS ZERO) then acc
  else
    let power := len ts - 1 - Z.of_nat i in
    acc + Trit_int t * 3 ^ power.

Definition decode (ts : list Trit) : Z :=
  fold_left (decode_step ts) (seq 0 (List.length ts)) 0.

(** The end of [__init__] (from [self.string = ...] on), once [self.trits]
    is settled. *)
Definition Trits_finish (ts : list Trit) : Trits :=
  {| trits := ts; string := join_str ts; integer := decode ts |}.

(** The first argument of [Trits(...)]: an integer, [None], or an iterable
    of values (a [str] iterates its characters, a [Trits] its trits). *)
Inductive source : Type :=
| SInt (n : Z)
| SNone
| SIter (xs : list pyvalue).

Definition of_str (s : pystr) : source := SIter (map (fun c => VStr [c]) s).
Definition of_list (ts : list Trit) : source := SIter (map VTrit ts).
Definition of_Trits (s : Trits) : source := of_list (trits s).

(** The binary64 number a non-negative Python integer converts to (round to
    nearest, ties to even, 53 significant bits), as an exact integer. *)
Definition to_double (x : Z) : Z :=
  if x <? 2 ^ 53 then x
  else
    let ulp := 2 ^ (Z.log2 x - 52) in
    let q := x / ulp in
    let r := x mod ulp in
    let q' := if 2 * r <? ulp then q
              else if ulp <? 2 * r then q + 1
              else if Z.even q then q else q + 1 in
    q' * ulp.

Section Constructor.

(** [int(math.ceil(math.log(x, 3)))] for a binary64 [x]: the floating-point
    logarithms, their quotient and its ceiling. (Beyond the binary64 range
    [math.log] works from the 53-bit mantissa and the exponent of its
    argument, which [to_double] determines as well.) *)
Variable ceil_log3_float : Z -> Z.

(** [int_order] *)
Definition int_order (integer : Z) : Z :=
  ceil_log3_float (to_double (2 * Z.abs integer)).

(** The [while power >= 0] loop of [__init__]; [fuel] bounds the number of
    iterations. *)
Fixpoint from_int_loop (fuel : nat) (integer power : Z) (acc : list Trit) : list Trit :=
  match fuel with
  | O => acc
  | S fuel' =>
      if power >=? 0 then
        let trit :=
          if (if integer =? 0 then true else int_order integer <=? power) then TRITS ZERO
          else if integer <? 0 then TRITS NEG
          else TRITS POS in
        from_int_loop fuel' (integer - Trit_int trit * 3 ^ power) (power - 1) (acc ++ [trit])
      else acc
  end.

(** The integer branch of [__init__]. *)
Definition from_int (n : Z) : list Trit :=
  if n =? 0 then [TRITS ZERO]
  else
    let power := int_order n - 1 in
    from_int_loop (Z.to_nat (power + 1)) n power [].

(** The [length] part of [__init__]. *)
Definition force_length (ts : list Trit) (length : option Z) : res (list Trit) :=
  match length with
  | None => Ok ts
  | Some l =>
      if l <? 0 then Raise (ValueError (InvalidLengthArgument l))
      else if len ts <? l then Ok (repeat (TRITS ZERO) (Z.to_nat (l - len ts)) ++ ts)
      else if len ts >? l then Ok (slice_from (- l) ts)
      else Ok ts
  end.

(** [Trits.__init__] *)
Definition Trits_init (src : source) (length : option Z) : res Trits :=
  ts0 <- match src with
         | SInt n => Ok (from_int n)
         | SNone => Ok []
         | SIter xs => mapM Trit_make xs
         end ;;
  ts <- force_length ts0 length ;;
  Ok (Trits_finish ts).

(** [Trits.__neg__] *)
Definition Trits_neg (self : Trits) : res Trits :=
  Trits_init (of_list (map Trit_neg (trits self))) None.

(** [Trits.__abs__]: the loop over [self.trits]. *)
Fixpoint abs_loop (self : Trits) (ts : list Trit) : res Trits :=
  match ts with
  | [] => Ok self
  | t :: rest =>
      if Trit_eq t (TRITS NEG) then Trits_neg self
      else if Trit_eq t (TRITS POS) then Ok self
      else abs_loop self rest
  end.

Definition Trits_abs (self : Trits) : res Trits := abs_loop self (trits self).

(** [Trits.match_length] *)
Definition match_length (a b : Trits) : res (Trits * Trits) :=
  if Trits_len a =? Trits_len b then Ok (a, b)
  else if Trits_len a <? Trits_len b then
    a' <- Trits_init (of_Trits a) (Some (Trits_len b)) ;; Ok (a', b)
  else
    b' <- Trits_init (of_Trits b) (Some (Trits_len a)) ;; Ok (a, b').

(** The loop of [Trits.cmp] over [zip(a, b)]. *)
Fixpoint cmp_loop (xys : list (Trit * Trit)) : Z :=
  match xys with
  | [] => 0
  | (x, y) :: rest =>
      if Trit_lt x y then -1
      else if Trit_gt x y then 1
      else cmp_loop rest
  end.

(** [Trits.cmp] *)
Definition cmp (self other : Trits) : res Z :=
  ab <- match_length self other ;;
  Ok (cmp_loop (combine (trits (fst ab)) (trits (snd ab)))).

End Constructor.

(** The ceiling of the base-3 logarithm in exact arithmetic: the least [k]
    with [x <= 3 ^ k], searched upwards. *)
Fixpoint ceil_log3_from (fuel : nat) (k x : Z) : Z :=
  match fuel with
  | O => k
  | S fuel' => if x <=? 3 ^ k then k else ceil_log3_from fuel' (k + 1) x
  end.

Definition ceil_log3 (x : Z) : Z := ceil_log3_from (Z.to_nat (Z.log2 x + 1)) 0 x.

(** The number of trits an integer needs: the least [k] with
    [2 * |n| <= 3 ^ k]. *)
Definition min_trits (n : Z) : Z := ceil_log3 (2 * Z.abs n).

(** The positional value of a list of trits, most significant first. *)
Fixpoint pvalue (ts : list Trit) : Z :=
  match ts with
  | [] => 0
  | t :: rest => Trit_int t * 3 ^ len rest + pvalue rest
  end.

(** The first trit of a list that is not zero, if any. *)
Fixpoint first_nonzero (ts : list Trit) : option Trit :=
  match ts with
  | [] => None
  | t :: rest => if Trit_eq t (TRITS ZERO) then first_nonzero rest else Some t
  end.

Definition T_ := TRITS ZERO.
Definition Tn := TRITS NEG.
Definition Tp := TRITS POS.

(** ** Definitions the statements use *)

(** The accepted spellings, by code point: the glyphs ["-"], ["0"], ["+"];
    ["-1"] and ["1"]; the letters ["N"], ["n"], ["Z"], ["z"] and ["="]; the
    empty string; U+2717 and U+2713. *)
Definition spellings : list (pystr * glyph) :=
  [ ([45], NEG); ([48], ZERO); ([43], POS);
    ([45; 49], NEG); ([49], POS);
    ([78], ZERO); ([110], ZERO); ([90], ZERO); ([122], ZERO); ([61], ZERO);
    ([], ZERO);
    ([10007], NEG); ([10003], POS) ].

(** A string that neither starts nor ends with white space. *)
Definition trimmed (k : pystr) : bool :=
  str_eqb (lstrip k) k && str_eqb (lstrip (rev k)) (rev k).

(** A source all of whose elements parse (an integer and [None] have no
    element to parse). *)
Definition parses (src : source) : bool :=
  match src with
  | SIter xs => forallb (fun x => match Trit_make x with Ok _ => true | Raise _ => false end) xs
  | _ => true
  end.

(** The first element of a source that does not parse, if there is one. *)
Definition first_unparsable (src : source) : option pyvalue :=
  match src with
  | SIter xs => find (fun x => match Trit_make x with Ok _ => false | Raise _ => true end) xs
  | _ => None
  end.

(** Two consecutive integers whose doubles convert to the same binary64
    number: [(3 ^ 40 - 1) / 2] needs 40 trits, [(3 ^ 40 + 1) / 2] needs 41. *)
Definition below_3_40 : Z := 6078832729528464400.
Definition above_3_40 : Z := 6078832729528464401.

(** [int_order] returns the true order on every integer the loop can hand
    it while it decomposes [n]. *)
Definition exact_below (F : Z -> Z) (n : Z) : Prop :=
  forall m, m <> 0 -> Z.abs m <= Z.abs n -> int_order F m = min_trits m.

(** ** The other methods of [Trit] *)

(** [Trit.__bool__] (and [__nonzero__]) *)
Definition Trit_bool (self : Trit) : bool := glyph_eqb (value self) POS.

(** [Trit.__pos__], [Trit.__invert__] *)
Definition Trit_pos (self : Trit) : Trit := self.
Definition Trit_invert (self : Trit) : Trit := Trit_neg self.

(** [Trit.__le__], [Trit.__ge__], [Trit.__ne__] *)
Definition Trit_le (self other : Trit) : bool := Trit_int self <=? Trit_int other.
Definition Trit_ge (self other : Trit) : bool := Trit_int other <=? Trit_int self.
Definition Trit_ne (self other : Trit) : bool := negb (glyph_eqb (value self) (value other)).

(** ** The other methods of [Trits] *)

(** What [__getitem__] can raise besides the errors of the constructor:
    [IndexError] of a list index out of range, and the [ValueError] of a
    slice whose step is zero. *)
Inductive getitem_exn : Type :=
| Constructor_exn (e : exn)
| IndexError
| SliceStepZero.

Definition lift_exn {A : Type} (m : res A) : result getitem_exn A :=
  match m with
  | Ok a => Ok a
  | Raise e => Raise (Constructor_exn e)
  end.

(** [l[i]] for a list: a negative index counts from the end. *)
Definition list_index {A : Type} (l : list A) (i : Z) : result getitem_exn A :=
  let j := if i <? 0 then i + len l else i in
  if (j <? 0) || (len l <=? j) then Raise IndexError
  else
    match nth_error l (Z.to_nat j) with
    | Some x => Ok x
    | None => Raise IndexError
    end.

(** A [slice(start, stop, step)] object; [None] for a part left out. *)
Record pyslice : Type := Slice {
  slice_start : option Z;
  slice_stop : option Z;
  slice_step : option Z
}.

(** How a slice bound is brought into the list, as [slice.indices] does:
    a negative bound counts from the end, then it is clamped to
    [lower..upper]. *)
Definition adjust_bound (n lower upper : Z) (bound : Z) : Z :=
  let b := if bound <? 0 then bound + n else bound in
  if b <? lower then lower else if upper <? b then upper else b.

(** [l[start:stop:step]] for a list. *)
Definition list_slice {A : Type} (d : A) (l : list A) (k : pyslice) : result getitem_exn (list A) :=
  let n := len l in
  let step := match slice_step k with None => 1 | Some st => st end in
  if step =? 0 then Raise SliceStepZero
  else
    let lower := if step <? 0 then -1 else 0 in
    let upper := if step <? 0 then n - 1 else n in
    let start := match slice_start k with
                 | None => if step <? 0 then upper else lower
                 | Some a => adjust_bound n lower upper a
                 end in
    let stop := match slice_stop k with
                | None => if step <? 0 then lower else upper
                | Some b => adjust_bound n lower upper b
                end in
    let count :=
      if step <? 0
      then (if stop <? start then (start - stop - 1) / (- step) + 1 else 0)
      else (if start <? stop then (stop - start - 1) / step + 1 else 0) in
    Ok (map (fun i => nth (Z.to_nat (start + Z.of_nat i * step)) l d)
            (seq 0 (Z.to_nat count))).

(** The key of [__getitem__]: an integer or a slice. *)
Inductive pykey : Type :=
| KInt (i : Z)
| KSlice (k : pyslice).

(** What [__getitem__] returns: a [Trit] for an integer key, a [Trits] for
    a slice. *)
Inductive pyitem : Type :=
| ITrit (t : Trit)
| ITrits (s : Trits).

(** The probe of [__contains__]: a [Trit], or anything else through its
    [str]. *)
Inductive probe : Type :=
| PTrit (t : Trit)
| PText (s : pystr).

Fixpoint startswith (w s : pystr) : bool :=
  match w, s with
  | [], _ => true
  | _ :: _, [] => false
  | c :: w', d :: s' => (c =? d) && startswith w' s'
  end.

(** [w in s] for two strings. *)
Fixpoint str_contains (w s : pystr) : bool :=
  startswith w s ||
  match s with
  | [] => false
  | _ :: s' => str_contains w s'
  end.

(** The right operand of [+]: a [Trit], or an iterable of values. *)
Inductive addend : Type :=
| ATrit (t : Trit)
| AIter (xs : list pyvalue).

Definition addend_of_Trits (s : Trits) : addend := AIter (map VTrit (trits s)).

(** [l * n] for a list. *)
Definition list_mul {A : Type} (l : list A) (n : Z) : list A :=
  List.concat (repeat l (Z.to_nat n)).

Section Operators.

Variable ceil_log3_float : Z -> Z.

(** [Trits.__getitem__] *)
Definition Trits_getitem (self : Trits) (key : pykey) : result getitem_exn pyitem :=
  match key with
  | KSlice k =>
      ts <- list_slice (TRITS ZERO) (trits self) k ;;
      s <- lift_exn (Trits_init ceil_log3_float (of_list ts) None) ;;
      Ok (ITrits s)
  | KInt i =>
      t <- list_index (trits self) i ;; Ok (ITrit t)
  end.

(** [Trits.__contains__] *)
Definition Trits_contains (self : Trits) (item : probe) : bool :=
  match item with
  | PTrit t => existsb (fun x => Trit_eq x t) (trits self)
  | PText w => str_contains w (string self)
  end.

(** [Trits.__invert__], [Trits.__pos__] *)
Definition Trits_invert (self : Trits) : res Trits := Trits_neg ceil_log3_float self.
Definition Trits_pos (self : Trits) : Trits := self.

(** [Trits.__and__], [Trits.__or__], [Trits.__xor__]: the operation of
    [Trit] over [zip(a, b)]. *)
Definition Trits_zip_with (op : Trit -> Trit -> Trit) (self other : Trits) : res Trits :=
  ab <- match_length ceil_log3_float self other ;;
  Trits_init ceil_log3_float
    (of_list (map (fun xy => op (fst xy) (snd xy))
                  (combine (trits (fst ab)) (trits (snd ab))))) None.

Definition Trits_and (self other : Trits) : res Trits := Trits_zip_with Trit_and self other.
Definition Trits_or (self other : Trits) : res Trits := Trits_zip_with Trit_or self other.
Definition Trits_xor (self other : Trits) : res Trits := Trits_zip_with Trit_xor self other.



(** [Trits.__mul__] *)
Definition Trits_mul (self : Trits) (other : Z) : res Trits :=
  Trits_init ceil_log3_float (of_list (list_mul (trits self) other)) None.

(** [Trits.__lt__], [__le__], [__eq__], [__ne__], [__gt__], [__ge__] *)
Definition Trits_lt (self other : Trits) : res bool :=
  c <- cmp ceil_log3_float self other ;; Ok (c <? 0).
Definition Trits_le (self other : Trits) : res bool :=
  c <- cmp ceil_log3_float self other ;; Ok (c <=? 0).
Definition Trits_eq (self other : Trits) : res bool :=
  c <- cmp ceil_log3_float self other ;; Ok (c =? 0).
Definition Trits_ne (self other : Trits) : res bool :=
  c <- cmp ceil_log3_float self other ;; Ok (negb (c =? 0)).
Definition Trits_gt (self other : Trits) : res bool :=
  c <- cmp ceil_log3_float self other ;; Ok (c >? 0).
Definition Trits_ge (self other : Trits) : res bool :=
  c <- cmp ceil_log3_float self other ;; Ok (c >=? 0).

End Operators.

(** ** More definitions the statements use *)

(** A list of trits with zero trits on its left, up to [n] trits. *)
Definition pad_to (n : nat) (ts : list Trit) : list Trit :=
  repeat (TRITS ZERO) (n - List.length ts) ++ ts.

(** Two lists combined trit by trit. *)
Fixpoint map2 (op : Trit -> Trit -> Trit) (la lb : list Trit) : list Trit :=
  match la, lb with
  | x :: la', y :: lb' => op x y :: map2 op la' lb'
  | _, _ => []
  end.

(** A text made of white space only. *)
Definition blank (w : pystr) : bool := forallb isspace w.

(** The one character a trit renders as. *)
Definition glyph_char (t : Trit) : Z :=
  match value t with
  | NEG => 45
  | ZERO => 48
  | POS => 43
  end.


(** * Properties *)

(** ** Trits *)

Lemma Trit_cases (t : Trit) : t = TRITS NEG \/ t = TRITS ZERO \/ t = TRITS POS.
Proof. destruct t as [[ | | ]]; auto. Qed.

Ltac trit_cases t :=
  destruct (Trit_cases t) as [-> | [-> | ->]].

Lemma Trit_eq_true (a b : Trit) : Trit_eq a b = true <-> a = b.
Proof.
  trit_cases a; trit_cases b; cbn; split; intro H; try reflexivity; discriminate H.
Qed.

Lemma Trit_int_neg (t : Trit) : Trit_int (Trit_neg t) = - Trit_int t.
Proof. trit_cases t; reflexivity. Qed.

(** The examples of the class docstring, with the exact order for
    [int_order]. *)
Example Trits_minus_five :
  Trits_init ceil_log3 (SInt (-5)) None = Ok (Trits_obj [Tn; Tp; Tp] (u "-++") (-5)).
Proof. reflexivity. Qed.

Example Trits_of_text :
  Trits_init ceil_log3 (of_str (u "-++")) None = Ok (Trits_obj [Tn; Tp; Tp] (u "-++") (-5)).
Proof. reflexivity. Qed.

Example Trits_abs_minus_two :
  Trits_abs ceil_log3 (Trits_finish [Tn; Tp]) = Ok (Trits_obj [Tp; Tn] (u "+-") 2).
Proof. reflexivity. Qed.

(** C5. [add(a, b)] is a pair of trits [(result, carry)]: when an operand is
    zero the result is the other operand and the carry is zero; when the
    operands are equal and not zero the result is their negation and the
    carry is the operand; when they differ and none is zero both are zero.
    In every case [int(result) + 3 * int(carry) = int(a) + int(b)]. *)
Theorem Trit_add_rules (a b : Trit) :
  let rc := Trit_add a b in
  (a = TRITS ZERO -> rc = (b, TRITS ZERO)) /\
  (b = TRITS ZERO -> rc = (a, TRITS ZERO)) /\
  (a = b -> a <> TRITS ZERO -> rc = (Trit_neg a, a)) /\
  (a <> b -> a <> TRITS ZERO -> b <> TRITS ZERO -> rc = (TRITS ZERO, TRITS ZERO)) /\
  Trit_int (fst rc) + 3 * Trit_int (snd rc) = Trit_int a + Trit_int b.
Proof.
  trit_cases a; trit_cases b; cbv zeta; cbn;
    repeat split; intros; try reflexivity; try congruence; try discriminate.
Qed.

(** ** Parsing a trit *)

Lemma str_eqb_eq (a b : pystr) : str_eqb a b = true <-> a = b.
Proof.
  revert b; induction a as [ | x a IH]; intros [ | y b]; cbn; split; intro H;
    try reflexivity; try discriminate H.
  - apply andb_true_iff in H as [H1 H2].
    apply Z.eqb_eq in H1. apply IH in H2. congruence.
  - injection H as -> ->. rewrite Z.eqb_refl. cbn. now apply IH.
Qed.

Lemma dict_get_spellings (k : pystr) :
  match dict_get INPUTS k with
  | Some g => In (k, g) spellings
  | None => forall g, ~ In (k, g) spellings
  end.
Proof.
  unfold INPUTS. cbn [dict_get].
  repeat match goal with
  | |- context [str_eqb ?a k] =>
      let E := fresh "E" in
      destruct (str_eqb a k) eqn:E;
      [ apply str_eqb_eq in E; subst k; vm_compute; tauto | ]
  end.
  intros g Hin. cbn in Hin.
  repeat match goal with
  | H : _ \/ _ |- _ => destruct H as [H | H]
  | H : (?a, _) = (k, _) |- _ =>
      injection H as <- _
  | H : str_eqb _ _ = false |- _ =>
      vm_compute in H; discriminate H
  | H : False |- _ => destruct H
  end.
Qed.

Lemma spellings_functional (k : pystr) (g g' : glyph) :
  In (k, g) spellings -> In (k, g') spellings -> g = g'.
Proof.
  intros H H'. cbn in H, H'.
  repeat match goal with
  | H : _ \/ _ |- _ => destruct H as [H | H]
  | H : False |- _ => destruct H
  end;
  repeat match goal with
  | H : (_, _) = (_, _) |- _ => injection H as ? ?
  end; subst; try reflexivity; discriminate.
Qed.

Lemma lstrip_spaces (ws s : pystr) :
  forallb isspace ws = true -> lstrip (ws ++ s) = lstrip s.
Proof.
  induction ws as [ | c ws IH]; cbn; intro H; [reflexivity | ].
  apply andb_true_iff in H as [-> H]. auto.
Qed.

Lemma lstrip_all_spaces (ws : pystr) :
  forallb isspace ws = true -> lstrip ws = [].
Proof.
  intro H. rewrite <- (app_nil_r ws). now rewrite lstrip_spaces.
Qed.

Lemma forallb_rev {A : Type} (f : A -> bool) (l : list A) :
  forallb f (rev l) = forallb f l.
Proof.
  induction l as [ | x l IH]; cbn; [reflexivity | ].
  rewrite forallb_app, IH. cbn. rewrite andb_true_r. apply andb_comm.
Qed.

Lemma lstrip_app_trimmed (k s : pystr) :
  k <> [] -> lstrip k = k -> lstrip (k ++ s) = k ++ s.
Proof.
  destruct k as [ | c k]; [congruence | ]. cbn. intros _.
  destruct (isspace c) eqn:E; [ | reflexivity].
  intro H. exfalso.
  assert (Hl : forall s : pystr, (List.length (lstrip s) <= List.length s)%nat).
  { induction s0 as [ | d s0 IH]; cbn; [lia | ]. destruct (isspace d); cbn; lia. }
  specialize (Hl k). rewrite H in Hl. cbn in Hl. lia.
Qed.

Lemma strip_padded (ws1 k ws2 : pystr) :
  trimmed k = true ->
  forallb isspace ws1 = true -> forallb isspace ws2 = true ->
  strip (ws1 ++ k ++ ws2) = k.
Proof.
  intros Hk H1 H2. unfold trimmed in Hk.
  apply andb_true_iff in Hk as [Hl Hr].
  apply str_eqb_eq in Hl. apply str_eqb_eq in Hr.
  unfold strip, rstrip. rewrite lstrip_spaces by assumption.
  destruct k as [ | c k].
  - cbn [app]. rewrite (lstrip_all_spaces ws2) by assumption. reflexivity.
  - rewrite lstrip_app_trimmed by (assumption || discriminate).
    rewrite rev_app_distr, (lstrip_spaces (rev ws2)) by (now rewrite forallb_rev).
    rewrite Hr. apply rev_involutive.
Qed.

Lemma spellings_trimmed (k : pystr) (g : glyph) :
  In (k, g) spellings -> trimmed k = true.
Proof.
  intro H. cbn in H.
  repeat match goal with
  | H : _ \/ _ |- _ => destruct H as [H | H]
  | H : False |- _ => destruct H
  | H : (_, _) = (k, _) |- _ => injection H as <- _
  end; reflexivity.
Qed.

(** C6. Parsing a text trims the surrounding white space; every accepted
    spelling, also with white space around it, gives its trit; and the parse
    raises the error carrying the offending input exactly when the trimmed
    text is not an accepted spelling. *)
Theorem Trit_make_text :
  (forall ws1 k ws2 g,
      In (k, g) spellings ->
      forallb isspace ws1 = true -> forallb isspace ws2 = true ->
      Trit_make (VStr (ws1 ++ k ++ ws2)) = Ok (TRITS g)) /\
  (forall s g, In (strip s, g) spellings -> Trit_make (VStr s) = Ok (TRITS g)) /\
  (forall s, (forall g, ~ In (strip s, g) spellings) <->
             Trit_make (VStr s) = Raise (ValueError (FailedToParse (VStr s)))) /\
  (forall s e, Trit_make (VStr s) = Raise e -> e = ValueError (FailedToParse (VStr s))).
Proof.
  assert (Hin : forall s g, In (strip s, g) spellings -> Trit_make (VStr s) = Ok (TRITS g)).
  { intros s g H. unfold Trit_make; cbv zeta. pose proof (dict_get_spellings (strip s)) as D.
    destruct (dict_get INPUTS (strip s)) as [g' | ].
    - now rewrite (spellings_functional _ _ _ H D).
    - destruct (D g H). }
  split; [ | split; [exact Hin | split]].
  - intros ws1 k ws2 g H H1 H2. apply Hin.
    rewrite strip_padded; eauto using spellings_trimmed.
  - intro s. unfold Trit_make; cbv zeta. pose proof (dict_get_spellings (strip s)) as D.
    destruct (dict_get INPUTS (strip s)) as [g' | ]; split; intro H.
    + destruct (H g' D).
    + discriminate H.
    + reflexivity.
    + exact D.
  - intros s e. unfold Trit_make; cbv zeta. destruct (dict_get INPUTS (strip s)); intro H.
    + discriminate H.
    + now injection H as <-.
Qed.

(** ** Positional value *)

Lemma len_cons {A : Type} (x : A) (l : list A) : len (x :: l) = len l + 1.
Proof. unfold len. cbn [List.length]. lia. Qed.

Lemma len_app {A : Type} (l l' : list A) : len (l ++ l') = len l + len l'.
Proof. unfold len. rewrite length_app. lia. Qed.

Lemma len_nonneg {A : Type} (l : list A) : 0 <= len l.
Proof. unfold len. lia. Qed.

Lemma len_repeat {A : Type} (x : A) (n : nat) : len (repeat x n) = Z.of_nat n.
Proof. unfold len. now rewrite repeat_length. Qed.

Lemma len_map {A B : Type} (f : A -> B) (l : list A) : len (map f l) = len l.
Proof. unfold len. now rewrite length_map. Qed.

Lemma pow3_pos (k : Z) : 0 <= k -> 0 < 3 ^ k.
Proof. intro H. apply Z.pow_pos_nonneg; lia. Qed.

Lemma pow3_succ (k : Z) : 0 <= k -> 3 ^ (k + 1) = 3 * 3 ^ k.
Proof. intro H. rewrite Z.pow_add_r by lia. lia. Qed.

Lemma decode_step_acc (ts : list Trit) (acc : Z) (i : nat) :
  decode_step ts acc i = acc + decode_step ts 0 i.
Proof. unfold decode_step. destruct (Trit_eq _ _); lia. Qed.

Lemma decode_fold_acc (ts : list Trit) (l : list nat) (acc : Z) :
  fold_left (decode_step ts) l acc = acc + fold_left (decode_step ts) l 0.
Proof.
  revert acc. induction l as [ | i l IH]; intro acc; cbn [fold_left]; [lia | ].
  rewrite IH, (IH (decode_step ts 0 i)), (decode_step_acc ts acc i). lia.
Qed.

Lemma decode_step_shift (t : Trit) (ts : list Trit) (acc : Z) (i : nat) :
  decode_step (t :: ts) acc (S i) = decode_step ts acc i.
Proof.
  unfold decode_step. cbn [nth]. rewrite len_cons.
  replace (len ts + 1 - 1 - Z.of_nat (S i)) with (len ts - 1 - Z.of_nat i) by lia.
  reflexivity.
Qed.

Lemma decode_fold_shift (t : Trit) (ts : list Trit) (l : list nat) (acc : Z) :
  fold_left (decode_step (t :: ts)) (map S l) acc = fold_left (decode_step ts) l acc.
Proof.
  revert acc. induction l as [ | i l IH]; intro acc; cbn [fold_left map]; [reflexivity | ].
  now rewrite decode_step_shift, IH.
Qed.

Lemma decode_cons (t : Trit) (ts : list Trit) :
  decode (t :: ts) = Trit_int t * 3 ^ len ts + decode ts.
Proof.
  unfold decode. cbn [List.length seq fold_left].
  rewrite <- seq_shift, decode_fold_shift, decode_fold_acc.
  f_equal. unfold decode_step. cbn [nth]. rewrite len_cons.
  replace (len ts + 1 - 1 - Z.of_nat 0) with (len ts) by lia.
  destruct (Trit_eq t (TRITS ZERO)) eqn:E; [ | lia].
  apply Trit_eq_true in E. subst t. reflexivity.
Qed.

(** The loop of [__init__] computes the positional sum. *)
Lemma decode_pvalue (ts : list Trit) : decode ts = pvalue ts.
Proof.
  induction ts as [ | t ts IH]; [reflexivity | ].
  rewrite decode_cons, IH. reflexivity.
Qed.

Lemma integer_finish (ts : list Trit) : integer (Trits_finish ts) = pvalue ts.
Proof. apply decode_pvalue. Qed.

Lemma pvalue_app (a b : list Trit) :
  pvalue (a ++ b) = pvalue a * 3 ^ len b + pvalue b.
Proof.
  induction a as [ | t a IH]; cbn [app pvalue]; [lia | ].
  rewrite IH, len_app, Z.pow_add_r by apply len_nonneg. lia.
Qed.

Lemma pvalue_zeros (n : nat) : pvalue (repeat (TRITS ZERO) n) = 0.
Proof. induction n as [ | n IH]; cbn [repeat pvalue]; [reflexivity | ]. rewrite IH. cbn. lia. Qed.

Lemma pvalue_neg (ts : list Trit) : pvalue (map Trit_neg ts) = - pvalue ts.
Proof.
  induction ts as [ | t ts IH]; cbn [map pvalue]; [reflexivity | ].
  rewrite IH, Trit_int_neg, len_map. lia.
Qed.

(** [k] trits reach no further than [(3 ^ k - 1) / 2] either way. *)
Lemma pvalue_bound (ts : list Trit) :
  - 3 ^ len ts < 2 * pvalue ts < 3 ^ len ts.
Proof.
  induction ts as [ | t ts IH]; [cbn; lia | ].
  cbn [pvalue]. rewrite len_cons, pow3_succ by apply len_nonneg.
  pose proof (pow3_pos (len ts) (len_nonneg ts)).
  trit_cases t; cbn [Trit_int TRITS value INTEGERS]; lia.
Qed.

(** ** The constructor *)

Lemma mapM_VTrit (ts : list Trit) : mapM Trit_make (map VTrit ts) = Ok ts.
Proof.
  induction ts as [ | t ts IH]; cbn [map mapM]; [reflexivity | ].
  rewrite IH. reflexivity.
Qed.

Section ConstructorFacts.

Variable F : Z -> Z.

Lemma Trits_init_of_list (ts : list Trit) (length : option Z) :
  Trits_init F (of_list ts) length =
  ts' <- force_length ts length ;; Ok (Trits_finish ts').
Proof. unfold Trits_init, of_list. rewrite mapM_VTrit. reflexivity. Qed.

(** Every object [__init__] returns is determined by its trits. *)
Lemma Trits_init_finish (src : source) (length : option Z) (s : Trits) :
  Trits_init F src length = Ok s -> s = Trits_finish (trits s).
Proof.
  unfold Trits_init, bind.
  destruct (match src with SInt n => _ | SNone => _ | SIter xs => _ end) as [ts0 | ]; [ | discriminate].
  destruct (force_length ts0 length) as [ts | ]; [ | discriminate].
  intro H. injection H as <-. reflexivity.
Qed.

Lemma Trits_neg_finish (ts : list Trit) :
  Trits_neg F (Trits_finish ts) = Ok (Trits_finish (map Trit_neg ts)).
Proof. unfold Trits_neg. rewrite Trits_init_of_list. reflexivity. Qed.

End ConstructorFacts.

(** ** Forced length *)

Lemma Trits_init_pad (F : Z -> Z) (ts : list Trit) (L : Z) :
  len ts <= L ->
  Trits_init F (of_list ts) (Some L) =
  Ok (Trits_finish (repeat (TRITS ZERO) (Z.to_nat (L - len ts)) ++ ts)).
Proof.
  intro HL. pose proof (len_nonneg ts) as Hn.
  rewrite Trits_init_of_list. unfold force_length.
  replace (L <? 0) with false by (symmetry; apply Z.ltb_ge; lia).
  destruct (len ts <? L) eqn:E; [reflexivity | ].
  apply Z.ltb_ge in E. assert (L = len ts) as -> by lia.
  replace (len ts >? len ts) with false by (now rewrite Z.gtb_ltb, Z.ltb_irrefl).
  rewrite Z.sub_diag. reflexivity.
Qed.

Lemma pvalue_pad (n : nat) (ts : list Trit) :
  pvalue (repeat (TRITS ZERO) n ++ ts) = pvalue ts.
Proof. rewrite pvalue_app, pvalue_zeros. lia. Qed.

(** C4. Forcing a sequence to a length [L >= len(s)] puts [L - len(s)] zero
    trits on its left, and the decoded integer is unchanged. *)
Theorem pad_preserves_value (F : Z -> Z) (ts : list Trit) (L : Z) :
  len ts <= L ->
  exists s' : Trits,
    Trits_init F (of_Trits (Trits_finish ts)) (Some L) = Ok s' /\
    trits s' = repeat (TRITS ZERO) (Z.to_nat (L - len ts)) ++ ts /\
    Trits_len s' = L /\
    integer s' = integer (Trits_finish ts).
Proof.
  intro HL. pose proof (len_nonneg ts) as Hn.
  unfold of_Trits. cbn [trits Trits_finish].
  rewrite Trits_init_pad by assumption.
  eexists. split; [reflexivity | ].
  unfold Trits_len. cbn [trits Trits_finish]. split; [reflexivity | ].
  rewrite len_app, len_repeat, !integer_finish, pvalue_pad.
  split; lia.
Qed.

Lemma pad_preserves_value_witness :
  exists s' : Trits,
    Trits_init ceil_log3 (of_Trits (Trits_finish [Tn; Tp; Tp])) (Some 5) = Ok s' /\
    trits s' = repeat (TRITS ZERO) (Z.to_nat (5 - len [Tn; Tp; Tp])) ++ [Tn; Tp; Tp] /\
    Trits_len s' = 5 /\
    integer s' = integer (Trits_finish [Tn; Tp; Tp]).
Proof.
  apply (pad_preserves_value ceil_log3 [Tn; Tp; Tp] 5). vm_compute. discriminate.
Defined.

Lemma mapM_parses (xs : list pyvalue) :
  forallb (fun x => match Trit_make x with Ok _ => true | Raise _ => false end) xs = true ->
  exists ts, mapM Trit_make xs = Ok ts.
Proof.
  induction xs as [ | x xs IH]; cbn [forallb mapM]; intro H; [eauto | ].
  apply andb_true_iff in H as [Hx Hxs].
  destruct (Trit_make x) as [t | ]; [ | discriminate].
  destruct (IH Hxs) as [ts ->]. cbn. eauto.
Qed.

(** C7, as stated, fails: the elements are parsed before the length is
    looked at, so [Trits(["abc"], -1)] raises the parse error of ["abc"], not
    the length error. *)
Lemma negative_length_parse_error_first :
  -1 < 0 /\
  Trits_init ceil_log3 (SIter [VStr (u "abc")]) (Some (-1)) =
    Raise (ValueError (FailedToParse (VStr (u "abc")))) /\
  Trits_init ceil_log3 (SIter [VStr (u "abc")]) (Some (-1)) <>
    Raise (ValueError (InvalidLengthArgument (-1))).
Proof.
  split; [reflexivity | ]. split; [reflexivity | ].
  intro H. vm_compute in H. discriminate H.
Qed.

Lemma Trit_make_raises (x : pyvalue) (e : exn) :
  Trit_make x = Raise e -> e = ValueError (FailedToParse x).
Proof.
  destruct x as [t | n | | w]; unfold Trit_make; cbv zeta.
  - discriminate.
  - destruct (n =? 0); [discriminate | ]. destruct (n >? 0); discriminate.
  - discriminate.
  - destruct (dict_get INPUTS (strip w)); [discriminate | ].
    intro H. now injection H as <-.
Qed.

(** What parsing the elements gives: the error of the first element that
    does not parse, or the trits when there is none. *)
Lemma mapM_first_unparsable (xs : list pyvalue) :
  match first_unparsable (SIter xs) with
  | Some v => mapM Trit_make xs = Raise (ValueError (FailedToParse v))
  | None => exists ts, mapM Trit_make xs = Ok ts
  end.
Proof.
  cbn [first_unparsable].
  induction xs as [ | x xs IH]; cbn [find mapM]; [eauto | ].
  destruct (Trit_make x) as [t | e] eqn:E; cbn [bind].
  - destruct (find _ xs) as [v | ].
    + rewrite IH. reflexivity.
    + destruct IH as [ts ->]. cbn [bind]. eauto.
  - apply Trit_make_raises in E. now subst e.
Qed.

(** [first_unparsable] is the first element that does not parse: all the
    elements before it parse. *)
Lemma first_unparsable_split (src : source) (v : pyvalue) :
  first_unparsable src = Some v ->
  exists good rest,
    src = SIter (good ++ v :: rest) /\
    parses (SIter good) = true /\ parses (SIter [v]) = false.
Proof.
  destruct src as [n | | xs]; cbn [first_unparsable]; try discriminate.
  induction xs as [ | x xs IH]; cbn [find]; [discriminate | ].
  destruct (Trit_make x) as [t | e] eqn:E.
  - intro H. destruct (IH H) as (good & rest & Hs & Hg & Hv).
    injection Hs as ->. exists (x :: good), rest.
    split; [reflexivity | ]. cbn [parses forallb] in *. rewrite E, Hg. auto.
  - intro H. injection H as <-. exists [], xs.
    split; [reflexivity | ]. cbn [parses forallb]. rewrite E. auto.
Qed.

Lemma parses_no_unparsable (src : source) :
  parses src = true <-> first_unparsable src = None.
Proof.
  destruct src as [n | | xs]; cbn [parses first_unparsable]; try tauto.
  induction xs as [ | x xs IH]; cbn [forallb find]; [tauto | ].
  destruct (Trit_make x); cbn [andb]; [exact IH | split; discriminate].
Qed.

(** C7, amended. A negative requested length makes the constructor raise,
    with no object returned. When the source is an integer, [None], or an
    iterable whose elements all parse, it raises the length error carrying
    the requested length. The elements are parsed before the length is
    looked at: when one of them does not parse, the parse error of the
    first such element is raised instead. *)
Theorem negative_length_raises (F : Z -> Z) (src : source) (L : Z) :
  L < 0 ->
  Trits_init F src (Some L) =
    Raise (ValueError match first_unparsable src with
                      | None => InvalidLengthArgument L
                      | Some v => FailedToParse v
                      end) /\
  (parses src = true <-> first_unparsable src = None) /\
  (forall v, first_unparsable src = Some v ->
     exists good rest,
       src = SIter (good ++ v :: rest) /\
       parses (SIter good) = true /\ parses (SIter [v]) = false).
Proof.
  intro HL.
  split; [ | split; [apply parses_no_unparsable | apply first_unparsable_split]].
  unfold Trits_init.
  assert (Hf : forall ts, force_length ts (Some L) = Raise (ValueError (InvalidLengthArgument L))).
  { intro ts. unfold force_length. now replace (L <? 0) with true by (symmetry; apply Z.ltb_lt; lia). }
  destruct src as [n | | xs].
  - cbn [bind first_unparsable]. rewrite Hf. reflexivity.
  - cbn [bind first_unparsable]. rewrite Hf. reflexivity.
  - pose proof (mapM_first_unparsable xs) as H.
    destruct (first_unparsable (SIter xs)) as [v | ].
    + rewrite H. reflexivity.
    + destruct H as [ts ->]. cbn [bind]. rewrite Hf. reflexivity.
Qed.

Lemma negative_length_raises_witness :
  Trits_init ceil_log3 (SIter [VStr (u "+"); VStr (u "abc"); VStr (u "?")]) (Some (-2)) =
    Raise (ValueError
             match first_unparsable (SIter [VStr (u "+"); VStr (u "abc"); VStr (u "?")]) with
             | None => InvalidLengthArgument (-2)
             | Some v => FailedToParse v
             end) /\
  (parses (SIter [VStr (u "+"); VStr (u "abc"); VStr (u "?")]) = true <->
   first_unparsable (SIter [VStr (u "+"); VStr (u "abc"); VStr (u "?")]) = None) /\
  (forall v, first_unparsable (SIter [VStr (u "+"); VStr (u "abc"); VStr (u "?")]) = Some v ->
     exists good rest,
       SIter [VStr (u "+"); VStr (u "abc"); VStr (u "?")] = SIter (good ++ v :: rest) /\
       parses (SIter good) = true /\ parses (SIter [v]) = false).
Proof.
  apply (negative_length_raises ceil_log3
           (SIter [VStr (u "+"); VStr (u "abc"); VStr (u "?")]) (-2)).
  lia.
Defined.

(** C9. An empty iterable, or [None], with no length gives the sequence of
    length 0, with empty text and decoded integer 0; the integer 0 gives the
    one-trit sequence ["0"]. *)
Theorem empty_sources (F : Z -> Z) :
  Trits_init F (SIter []) None = Ok (Trits_obj [] [] 0) /\
  Trits_init F SNone None = Ok (Trits_obj [] [] 0) /\
  Trits_len (Trits_obj [] [] 0) = 0 /\
  Trits_init F (SInt 0) None = Ok (Trits_obj [TRITS ZERO] (u "0") 0) /\
  Trits_len (Trits_obj [TRITS ZERO] (u "0") 0) = 1.
Proof. repeat split. Qed.

(** C10, at length 0. [self.trits[-length:]] is [self.trits[0:]] when
    [length] is 0: a sequence that is not empty keeps all of its trits, where
    the class promises exactly [length] of them. *)
Theorem force_length_zero_keeps_all (F : Z -> Z) (t : Trit) (ts : list Trit) :
  Trits_init F (of_Trits (Trits_finish (t :: ts))) (Some 0) = Ok (Trits_finish (t :: ts)) /\
  Trits_len (Trits_finish (t :: ts)) <> 0.
Proof.
  unfold of_Trits. cbn [trits Trits_finish]. rewrite Trits_init_of_list.
  unfold force_length, Trits_len. cbn [trits Trits_finish].
  pose proof (len_nonneg ts) as Hn. rewrite len_cons.
  replace (len ts + 1 <? 0) with false by (symmetry; apply Z.ltb_ge; lia).
  replace (len ts + 1 >? 0) with true by (symmetry; apply Z.gtb_lt; lia).
  split; [ | lia].
  unfold slice_from. rewrite len_cons. cbn [Z.opp Z.ltb Z.compare Z.min].
  replace (Z.min 0 (len ts + 1)) with 0 by lia. reflexivity.
Qed.

Lemma skipn_value (ts : list Trit) (k : nat) :
  pvalue ts = pvalue (firstn k ts) * 3 ^ len (skipn k ts) + pvalue (skipn k ts).
Proof. rewrite <- pvalue_app, firstn_skipn. reflexivity. Qed.

(** Truncation to a length [0 < L < len(s)]: the [L] rightmost trits are
    kept, and the decoded integer changes by a multiple of [3 ^ L]. *)
Theorem truncate_keeps_low_trits (F : Z -> Z) (ts : list Trit) (L : Z) :
  0 < L < len ts ->
  exists s' : Trits,
    Trits_init F (of_Trits (Trits_finish ts)) (Some L) = Ok s' /\
    trits s' = skipn (Z.to_nat (len ts - L)) ts /\
    Trits_len s' = L /\
    (integer s' - integer (Trits_finish ts)) mod 3 ^ L = 0.
Proof.
  intro HL. unfold of_Trits. cbn [trits Trits_finish].
  rewrite Trits_init_of_list. unfold force_length.
  replace (L <? 0) with false by (symmetry; apply Z.ltb_ge; lia).
  replace (len ts <? L) with false by (symmetry; apply Z.ltb_ge; lia).
  replace (len ts >? L) with true by (symmetry; apply Z.gtb_lt; lia).
  unfold slice_from.
  replace (- L <? 0) with true by (symmetry; apply Z.ltb_lt; lia).
  replace (Z.max (- L + len ts) 0) with (len ts - L) by lia.
  eexists. split; [reflexivity | ].
  cbn [bind trits Trits_finish]. split; [reflexivity | ].
  assert (Hlen : len (skipn (Z.to_nat (len ts - L)) ts) = L).
  { unfold len in *. rewrite length_skipn. lia. }
  unfold Trits_len. cbn [trits Trits_finish]. split; [exact Hlen | ].
  rewrite !integer_finish.
  rewrite (skipn_value ts (Z.to_nat (len ts - L))) at 1. rewrite Hlen.
  match goal with |- (?a - (?b * ?c + ?a)) mod _ = 0 =>
    replace (a - (b * c + a)) with ((- b) * c) by lia end.
  apply Z.mod_mul. pose proof (pow3_pos L). lia.
Qed.

Lemma truncate_keeps_low_trits_witness :
  exists s' : Trits,
    Trits_init ceil_log3 (of_Trits (Trits_finish [Tp; Tn; Tp])) (Some 2) = Ok s' /\
    trits s' = skipn (Z.to_nat (len [Tp; Tn; Tp] - 2)) [Tp; Tn; Tp] /\
    Trits_len s' = 2 /\
    (integer s' - integer (Trits_finish [Tp; Tn; Tp])) mod 3 ^ 2 = 0.
Proof.
  apply (truncate_keeps_low_trits ceil_log3 [Tp; Tn; Tp] 2). vm_compute. split; reflexivity.
Defined.

(** ** Absolute value *)

Lemma first_nonzero_sign (ts : list Trit) :
  match first_nonzero ts with
  | None => pvalue ts = 0
  | Some t => (t = TRITS NEG /\ pvalue ts < 0) \/ (t = TRITS POS /\ 0 < pvalue ts)
  end.
Proof.
  induction ts as [ | t ts IH]; [reflexivity | ].
  cbn [first_nonzero pvalue].
  pose proof (pvalue_bound ts) as B.
  trit_cases t; cbn [Trit_eq glyph_eqb TRITS value Trit_int INTEGERS].
  - left. split; [reflexivity | lia].
  - revert IH. destruct (first_nonzero ts) as [t' | ].
    + intros [[-> IH] | [-> IH]]; [left | right]; split; try reflexivity; lia.
    + lia.
  - right. split; [reflexivity | lia].
Qed.

Lemma abs_loop_first_nonzero (F : Z -> Z) (self : Trits) (ts : list Trit) :
  abs_loop F self ts =
  match first_nonzero ts with
  | Some t => if Trit_eq t (TRITS NEG) then Trits_neg F self else Ok self
  | None => Ok self
  end.
Proof.
  induction ts as [ | t ts IH]; [reflexivity | ].
  cbn [abs_loop first_nonzero]. rewrite IH.
  trit_cases t; reflexivity.
Qed.

(** C8. [abs(s)] follows the sign of the whole sequence: when the first
    trit that is not zero is negative it is the trit-wise negation of [s],
    whose decoded integer is [- int(s)]; otherwise, also when every trit is
    zero, it is [s] itself. Either way [int(abs(s)) = |int(s)|]. *)
Theorem Trits_abs_sign (F : Z -> Z) (ts : list Trit) :
  exists r : Trits,
    Trits_abs F (Trits_finish ts) = Ok r /\
    match first_nonzero ts with
    | Some t =>
        if Trit_eq t (TRITS NEG)
        then trits r = map Trit_neg ts /\ integer r = - integer (Trits_finish ts)
        else r = Trits_finish ts
    | None => r = Trits_finish ts
    end /\
    integer r = Z.abs (integer (Trits_finish ts)).
Proof.
  unfold Trits_abs. cbn [trits Trits_finish].
  rewrite abs_loop_first_nonzero, Trits_neg_finish.
  pose proof (first_nonzero_sign ts) as S.
  destruct (first_nonzero ts) as [t | ].
  - destruct S as [[-> S] | [-> S]]; cbn [Trit_eq glyph_eqb TRITS value].
    + eexists. split; [reflexivity | ].
      rewrite !integer_finish, pvalue_neg. cbn [trits Trits_finish].
      repeat split; lia.
    + eexists. split; [reflexivity | ].
      rewrite !integer_finish. split; [reflexivity | lia].
  - eexists. split; [reflexivity | ].
    rewrite !integer_finish. split; [reflexivity | lia].
Qed.

(** ** Comparison *)

Lemma cmp_loop_value (la lb : list Trit) :
  List.length la = List.length lb ->
  (cmp_loop (combine la lb) = -1 /\ pvalue la < pvalue lb) \/
  (cmp_loop (combine la lb) = 0 /\ pvalue la = pvalue lb) \/
  (cmp_loop (combine la lb) = 1 /\ pvalue lb < pvalue la).
Proof.
  revert lb. induction la as [ | x la IH]; intros [ | y lb] H; try discriminate H.
  - right. left. split; reflexivity.
  - injection H as H. specialize (IH lb H).
    assert (Hl : len la = len lb) by (unfold len; now rewrite H).
    pose proof (pvalue_bound la) as Ba. pose proof (pvalue_bound lb) as Bb.
    rewrite Hl in Ba.
    cbn [combine cmp_loop pvalue]. rewrite Hl.
    trit_cases x; trit_cases y;
      repeat match goal with
      | |- context [Trit_lt ?a ?b] =>
          let v := eval vm_compute in (Trit_lt a b) in change (Trit_lt a b) with v
      | |- context [Trit_gt ?a ?b] =>
          let v := eval vm_compute in (Trit_gt a b) in change (Trit_gt a b) with v
      end;
      cbn [Trit_int TRITS value INTEGERS]; cbv iota; lia.
Qed.

Lemma match_length_finish (F : Z -> Z) (ta tb : list Trit) :
  exists ta' tb' : list Trit,
    match_length F (Trits_finish ta) (Trits_finish tb) =
      Ok (Trits_finish ta', Trits_finish tb') /\
    List.length ta' = List.length tb' /\
    pvalue ta' = pvalue ta /\ pvalue tb' = pvalue tb.
Proof.
  unfold match_length, Trits_len, of_Trits. cbn [trits Trits_finish].
  destruct (len ta =? len tb) eqn:E.
  - apply Z.eqb_eq in E. exists ta, tb. unfold len in E. repeat split; lia.
  - apply Z.eqb_neq in E. destruct (len ta <? len tb) eqn:E'.
    + apply Z.ltb_lt in E'. rewrite Trits_init_pad by lia. cbn [bind].
      eexists. exists tb. split; [reflexivity | ].
      rewrite pvalue_pad. repeat split.
      rewrite length_app, repeat_length. unfold len in *. lia.
    + apply Z.ltb_ge in E'. rewrite Trits_init_pad by lia. cbn [bind].
      exists ta. eexists. split; [reflexivity | ].
      rewrite pvalue_pad. repeat split.
      rewrite length_app, repeat_length. unfold len in *. lia.
Qed.

(** C3. [s.cmp(t)] returns -1, 0 or 1, and its sign is that of the
    comparison of the decoded integers: negative exactly when
    [int(s) < int(t)], zero exactly when they are equal, positive exactly
    when [int(s) > int(t)]. *)
Theorem cmp_agrees_with_integers (F : Z -> Z) (ts tt : list Trit) :
  exists c : Z,
    cmp F (Trits_finish ts) (Trits_finish tt) = Ok c /\
    (c = -1 \/ c = 0 \/ c = 1) /\
    (c < 0 <-> integer (Trits_finish ts) < integer (Trits_finish tt)) /\
    (c = 0 <-> integer (Trits_finish ts) = integer (Trits_finish tt)) /\
    (c > 0 <-> integer (Trits_finish ts) > integer (Trits_finish tt)).
Proof.
  destruct (match_length_finish F ts tt) as (ta & tb & Hm & Hl & Ha & Hb).
  unfold cmp. rewrite Hm. cbn [bind fst snd trits Trits_finish].
  eexists. split; [reflexivity | ].
  rewrite !integer_finish, <- Ha, <- Hb.
  destruct (cmp_loop_value ta tb Hl) as [[-> H] | [[-> H] | [-> H]]]; lia.
Qed.

(** ** Construction from an integer *)

Section FromInt.

Variable F : Z -> Z.

(** The loop stops on its condition: fuel beyond [power + 1] is not used. *)
Lemma from_int_loop_fuel (fuel : nat) (i p : Z) (acc : list Trit) :
  (Z.to_nat (p + 1) <= fuel)%nat ->
  from_int_loop F fuel i p acc = from_int_loop F (Z.to_nat (p + 1)) i p acc.
Proof.
  revert i p acc. induction fuel as [ | fuel IH]; intros i p acc H.
  - replace (Z.to_nat (p + 1)) with O by lia. reflexivity.
  - destruct (p >=? 0) eqn:E.
    + assert (0 <= p) by lia.
      replace (Z.to_nat (p + 1)) with (S (Z.to_nat (p - 1 + 1))) by lia.
      cbn [from_int_loop]. rewrite E. apply IH. lia.
    + assert (p < 0) by lia.
      replace (Z.to_nat (p + 1)) with O by lia.
      cbn [from_int_loop]. now rewrite E.
Qed.

Lemma from_int_loop_acc (fuel : nat) (i p : Z) (acc : list Trit) :
  from_int_loop F fuel i p acc = acc ++ from_int_loop F fuel i p [].
Proof.
  revert i p acc. induction fuel as [ | fuel IH]; intros i p acc; cbn [from_int_loop].
  - now rewrite app_nil_r.
  - destruct (p >=? 0); [ | now rewrite app_nil_r].
    rewrite IH. cbn [app]. rewrite (IH _ _ [_]). now rewrite <- app_assoc.
Qed.

Lemma from_int_loop_length (fuel : nat) (i : Z) :
  List.length (from_int_loop F fuel i (Z.of_nat fuel - 1) []) = fuel.
Proof.
  revert i. induction fuel as [ | fuel IH]; intro i; [reflexivity | ].
  cbn [from_int_loop].
  replace (Z.of_nat (S fuel) - 1) with (Z.of_nat fuel) by lia.
  replace (Z.of_nat fuel >=? 0) with true by (symmetry; apply Z.geb_le; lia).
  rewrite from_int_loop_acc, length_app, IH. cbn. lia.
Qed.

Lemma from_int_unfold (n : Z) :
  n <> 0 ->
  from_int F n =
  from_int_loop F (Z.to_nat (int_order F n)) n (Z.of_nat (Z.to_nat (int_order F n)) - 1) [].
Proof.
  intro Hn. unfold from_int.
  replace (n =? 0) with false by (symmetry; lia).
  cbv zeta. replace (int_order F n - 1 + 1) with (int_order F n) by lia.
  destruct (Z.to_nat (int_order F n)) eqn:E; [reflexivity | ].
  f_equal. lia.
Qed.

(** The integer branch appends one trit for each power from
    [int_order(n) - 1] down to 0. *)
Lemma from_int_length (n : Z) :
  n <> 0 -> len (from_int F n) = Z.max 0 (int_order F n).
Proof.
  intro Hn. rewrite from_int_unfold by assumption.
  unfold len. rewrite from_int_loop_length. lia.
Qed.

(** When [int_order] is too small, the sequence is too short to hold [n]. *)
Lemma from_int_short (n : Z) :
  n <> 0 -> 3 ^ Z.max 0 (int_order F n) < 2 * Z.abs n ->
  pvalue (from_int F n) <> n.
Proof.
  intros Hn H. pose proof (pvalue_bound (from_int F n)) as B.
  rewrite from_int_length in B by assumption. lia.
Qed.

(** When [int_order] is too large, the first trit overshoots [n]. *)
Lemma from_int_long (n : Z) :
  n <> 0 -> 0 < int_order F n -> 2 * Z.abs n < 3 ^ (int_order F n - 1) ->
  pvalue (from_int F n) <> n.
Proof.
  intros Hn Hk H. rewrite from_int_unfold by assumption.
  destruct (Z.to_nat (int_order F n)) as [ | f] eqn:E; [lia | ].
  cbn [from_int_loop].
  replace (Z.of_nat (S f) - 1) with (Z.of_nat f) in * by lia.
  replace (Z.of_nat f >=? 0) with true by (symmetry; apply Z.geb_le; lia).
  replace (n =? 0) with false by (symmetry; lia).
  replace (int_order F n <=? Z.of_nat f) with false by (symmetry; lia).
  rewrite from_int_loop_acc. cbn [app pvalue].
  set (rest := from_int_loop F f _ _ []).
  assert (Hr : len rest = Z.of_nat f).
  { unfold len, rest. now rewrite from_int_loop_length. }
  pose proof (pvalue_bound rest) as B. rewrite Hr in *.
  replace (int_order F n - 1) with (Z.of_nat f) in H by lia.
  destruct (n <? 0) eqn:En; cbn [Trit_int TRITS value INTEGERS]; lia.
Qed.

End FromInt.

Lemma around_3_40 :
  2 * below_3_40 = 3 ^ 40 - 1 /\ 2 * above_3_40 = 3 ^ 40 + 1.
Proof. split; reflexivity. Qed.

Lemma same_double :
  to_double (2 * Z.abs below_3_40) = to_double (2 * Z.abs above_3_40).
Proof. vm_compute. reflexivity. Qed.

Lemma int_order_same (F : Z -> Z) : int_order F below_3_40 = int_order F above_3_40.
Proof. unfold int_order. now rewrite same_double. Qed.

Lemma Trits_init_int (F : Z -> Z) (n : Z) :
  Trits_init F (SInt n) None = Ok (Trits_finish (from_int F n)).
Proof. reflexivity. Qed.

(** C1 fails in the code. [int_order] sees its argument through
    [math.log], that is, as a binary64 number, so it returns the same order
    for [(3 ^ 40 - 1) / 2] and for [(3 ^ 40 + 1) / 2], whatever the
    floating-point logarithm computes; the sequence built from one of the
    two does not decode to the integer it was built from. *)
Theorem from_int_roundtrip_breaks (F : Z -> Z) :
  exists s1 s2 : Trits,
    Trits_init F (SInt below_3_40) None = Ok s1 /\
    Trits_init F (SInt above_3_40) None = Ok s2 /\
    (integer s1 <> below_3_40 \/ integer s2 <> above_3_40).
Proof.
  do 2 eexists. rewrite !Trits_init_int. do 2 (split; [reflexivity | ]).
  rewrite !integer_finish.
  destruct (Z_le_gt_dec (int_order F above_3_40) 40) as [Hle | Hgt].
  - right. apply from_int_short; [discriminate | ].
    apply Z.le_lt_trans with (3 ^ 40); [ | vm_compute; reflexivity].
    apply Z.pow_le_mono_r; lia.
  - left. rewrite <- int_order_same in Hgt.
    apply from_int_long; [discriminate | lia | ].
    apply Z.lt_le_trans with (3 ^ 40); [vm_compute; reflexivity | ].
    apply Z.pow_le_mono_r; lia.
Qed.

(** ** The number of trits an integer needs *)

Lemma ceil_log3_from_spec (fuel : nat) (k x : Z) :
  0 <= k ->
  (forall j, 0 <= j < k -> 3 ^ j < x) ->
  x <= 3 ^ (k + Z.of_nat fuel) ->
  k <= ceil_log3_from fuel k x /\
  x <= 3 ^ ceil_log3_from fuel k x /\
  (forall j, 0 <= j < ceil_log3_from fuel k x -> 3 ^ j < x).
Proof.
  revert k. induction fuel as [ | fuel IH]; intros k Hk Hlow Hup; cbn [ceil_log3_from].
  - rewrite Z.add_0_r in Hup. repeat split; [lia | assumption | assumption].
  - destruct (x <=? 3 ^ k) eqn:E.
    + apply Z.leb_le in E. repeat split; [lia | assumption | assumption].
    + apply Z.leb_gt in E.
      destruct (IH (k + 1)) as (H1 & H2 & H3).
      * lia.
      * intros j Hj. destruct (Z.eq_dec j k) as [-> | Hne]; [assumption | apply Hlow; lia].
      * replace (k + 1 + Z.of_nat fuel) with (k + Z.of_nat (S fuel)) by lia. assumption.
      * repeat split; [lia | assumption | assumption].
Qed.

(** [ceil_log3 x] is the least [k] with [x <= 3 ^ k]. *)
Lemma ceil_log3_spec (x : Z) :
  0 < x ->
  0 <= ceil_log3 x /\
  x <= 3 ^ ceil_log3 x /\
  (forall j, 0 <= j < ceil_log3 x -> 3 ^ j < x).
Proof.
  intro Hx. unfold ceil_log3. apply ceil_log3_from_spec.
  - lia.
  - intros j Hj. lia.
  - pose proof (Z.log2_nonneg x) as Hl.
    destruct (Z.log2_spec x Hx) as [_ Hlt].
    rewrite Z.add_0_l, Z2Nat.id by lia.
    apply Z.le_trans with (2 ^ (Z.log2 x + 1)).
    + unfold Z.succ in Hlt. lia.
    + apply Z.pow_le_mono_l. lia.
Qed.

Lemma min_trits_spec (n : Z) :
  n <> 0 ->
  1 <= min_trits n /\
  2 * Z.abs n <= 3 ^ min_trits n /\
  (forall j, 0 <= j < min_trits n -> 3 ^ j < 2 * Z.abs n).
Proof.
  intro Hn. unfold min_trits.
  destruct (ceil_log3_spec (2 * Z.abs n)) as (H0 & H1 & H2); [lia | ].
  repeat split; try assumption.
  destruct (Z.eq_dec (ceil_log3 (2 * Z.abs n)) 0) as [E | E]; [ | lia].
  rewrite E in H1. change (3 ^ 0) with 1 in H1. lia.
Qed.

Lemma min_trits_le (n k : Z) :
  n <> 0 -> 0 <= k -> (min_trits n <= k <-> 2 * Z.abs n <= 3 ^ k).
Proof.
  intros Hn Hk. destruct (min_trits_spec n Hn) as (H0 & H1 & H2). split; intro H.
  - apply Z.le_trans with (3 ^ min_trits n); [assumption | ].
    apply Z.pow_le_mono_r; lia.
  - destruct (Z_le_gt_dec (min_trits n) k) as [ | Hgt]; [assumption | ].
    specialize (H2 k). lia.
Qed.

(** A power of 3 is odd, so it is never twice an integer. *)
Lemma pow3_not_even (k a : Z) : 0 <= k -> 2 * a <> 3 ^ k.
Proof.
  intros Hk H.
  assert (Ho : Z.odd (3 ^ k) = true).
  { destruct (Z.eq_dec k 0) as [-> | Hne]; [reflexivity | ].
    rewrite Z.odd_pow by lia. reflexivity. }
  rewrite <- H, Z.odd_mul in Ho. discriminate Ho.
Qed.

(** [k] trits hold [n] exactly when [min_trits n <= k]. *)
Lemma min_trits_fits (n k : Z) :
  n <> 0 -> 0 <= k -> (min_trits n <= k <-> 2 * Z.abs n < 3 ^ k).
Proof.
  intros Hn Hk. rewrite min_trits_le by assumption.
  pose proof (pow3_not_even k (Z.abs n) Hk). lia.
Qed.

(** C2 fails in the code, by the defect of C1: the two integers get
    sequences of the same length, and they need 40 and 41 trits. *)
Theorem from_int_length_not_minimal (F : Z -> Z) :
  exists s1 s2 : Trits,
    Trits_init F (SInt below_3_40) None = Ok s1 /\
    Trits_init F (SInt above_3_40) None = Ok s2 /\
    min_trits below_3_40 = 40 /\ min_trits above_3_40 = 41 /\
    (Trits_len s1 <> min_trits below_3_40 \/ Trits_len s2 <> min_trits above_3_40).
Proof.
  do 2 eexists. rewrite !Trits_init_int. do 2 (split; [reflexivity | ]).
  assert (E1 : min_trits below_3_40 = 40) by (vm_compute; reflexivity).
  assert (E2 : min_trits above_3_40 = 41) by (vm_compute; reflexivity).
  do 2 (split; [assumption | ]).
  unfold Trits_len. cbn [trits Trits_finish].
  rewrite !from_int_length, int_order_same, E1, E2 by discriminate. lia.
Qed.

(** ** The greedy decomposition, where [int_order] is exact *)

Section Greedy.

Variable F : Z -> Z.

(** One iteration: the trit placed at [3 ^ p] leaves a remainder that the
    [p] lower trits can hold, and that is no larger than the integer was. *)
Lemma greedy_step (r p : Z) :
  0 <= p -> exact_below F r -> 2 * Z.abs r < 3 ^ (p + 1) ->
  let trit :=
    if (if r =? 0 then true else int_order F r <=? p) then TRITS ZERO
    else if r <? 0 then TRITS NEG
    else TRITS POS in
  let r' := r - Trit_int trit * 3 ^ p in
  Z.abs r' <= Z.abs r /\ 2 * Z.abs r' < 3 ^ p /\
  (min_trits r = p + 1 -> trit <> TRITS ZERO).
Proof.
  intros Hp Hex Hr. cbv zeta.
  pose proof (pow3_pos p Hp) as Hpos.
  rewrite pow3_succ in Hr by assumption.
  destruct (r =? 0) eqn:E0.
  - apply Z.eqb_eq in E0. subst r. cbn [Trit_int TRITS value INTEGERS].
    split; [lia | split; [change (Z.abs (0 - 0 * 3 ^ p)) with 0; lia | ]].
    intro H. change (min_trits 0) with 0 in H. lia.
  - apply Z.eqb_neq in E0. rewrite (Hex r E0 (Z.le_refl _)).
    destruct (min_trits r <=? p) eqn:E1.
    + apply Z.leb_le in E1. pose proof E1 as E2.
      apply min_trits_fits in E2; [ | assumption | assumption].
      cbn [Trit_int TRITS value INTEGERS]. repeat split; lia.
    + apply Z.leb_gt in E1.
      assert (E2 : ~ 2 * Z.abs r < 3 ^ p).
      { intro H. apply min_trits_fits in H; [lia | assumption | assumption]. }
      pose proof (pow3_not_even p (Z.abs r) Hp) as Hodd.
      destruct (r <? 0) eqn:E3; cbn [Trit_int TRITS value INTEGERS];
        (split; [lia | split; [lia | intros _; discriminate]]).
Qed.

Lemma exact_below_le (n m : Z) :
  exact_below F n -> Z.abs m <= Z.abs n -> exact_below F m.
Proof. intros H Hm k Hk Hle. apply H; [assumption | lia]. Qed.

(** The loop is exact: started on an integer that [fuel] trits can hold,
    it writes trits whose positional value is that integer. *)
Lemma from_int_loop_exact (fuel : nat) (r : Z) :
  exact_below F r -> 2 * Z.abs r < 3 ^ Z.of_nat fuel ->
  pvalue (from_int_loop F fuel r (Z.of_nat fuel - 1) []) = r.
Proof.
  revert r. induction fuel as [ | fuel IH]; intros r Hex Hr.
  - change (3 ^ Z.of_nat 0) with 1 in Hr. cbn [from_int_loop pvalue]. lia.
  - cbn [from_int_loop].
    replace (Z.of_nat (S fuel) - 1) with (Z.of_nat fuel) by lia.
    replace (Z.of_nat (S fuel)) with (Z.of_nat fuel + 1) in Hr by lia.
    replace (Z.of_nat fuel >=? 0) with true by (symmetry; apply Z.geb_le; lia).
    destruct (greedy_step r (Z.of_nat fuel) ltac:(lia) Hex Hr) as (Ha & Hb & _).
    cbv zeta in Ha, Hb.
    set (trit := if (if r =? 0 then true else int_order F r <=? Z.of_nat fuel)
                 then TRITS ZERO else if r <? 0 then TRITS NEG else TRITS POS) in *.
    rewrite from_int_loop_acc. cbn [app pvalue].
    rewrite IH; [ | eapply exact_below_le; eassumption | assumption].
    unfold len. rewrite from_int_loop_length. lia.
Qed.

End Greedy.

(** Where [int_order] is exact on the integers up to [|n|], the sequence
    built from [n] decodes to [n]. *)
Theorem from_int_roundtrip_exact (F : Z -> Z) (n : Z) :
  exact_below F n ->
  exists s : Trits, Trits_init F (SInt n) None = Ok s /\ integer s = n.
Proof.
  intro Hex. rewrite Trits_init_int. eexists. split; [reflexivity | ].
  rewrite integer_finish.
  destruct (Z.eq_dec n 0) as [-> | Hn]; [reflexivity | ].
  rewrite from_int_unfold by assumption.
  destruct (min_trits_spec n Hn) as (H1 & H2 & _).
  apply from_int_loop_exact; [assumption | ].
  rewrite (Hex n Hn (Z.le_refl _)), Z2Nat.id by lia.
  apply min_trits_fits; [assumption | lia | lia].
Qed.

(** Where [int_order] is exact on the integers up to [|n|], the sequence
    built from [n <> 0] has [min_trits n] trits, the least number that
    holds [n], and its first trit is not zero. *)
Theorem from_int_minimal_exact (F : Z -> Z) (n : Z) :
  n <> 0 -> exact_below F n ->
  exists s : Trits,
    Trits_init F (SInt n) None = Ok s /\
    Trits_len s = min_trits n /\
    (forall ts : list Trit, len ts < min_trits n -> pvalue ts <> n) /\
    hd (TRITS ZERO) (trits s) <> TRITS ZERO.
Proof.
  intros Hn Hex. rewrite Trits_init_int. eexists. split; [reflexivity | ].
  destruct (min_trits_spec n Hn) as (H1 & H2 & H3).
  unfold Trits_len. cbn [trits Trits_finish].
  rewrite from_int_length, (Hex n Hn (Z.le_refl _)) by assumption.
  split; [lia | split].
  - intros ts Hlt Hv. pose proof (pvalue_bound ts) as B.
    pose proof (len_nonneg ts) as Hl. specialize (H3 (len ts)). lia.
  - rewrite from_int_unfold, (Hex n Hn (Z.le_refl _)) by assumption.
    destruct (Z.to_nat (min_trits n)) as [ | f] eqn:E; [lia | ].
    cbn [from_int_loop].
    replace (Z.of_nat (S f) - 1) with (Z.of_nat f) by lia.
    replace (Z.of_nat f >=? 0) with true by (symmetry; apply Z.geb_le; lia).
    rewrite from_int_loop_acc. cbn [app hd].
    assert (Hfit : 2 * Z.abs n < 3 ^ (Z.of_nat f + 1)).
    { apply min_trits_fits; [assumption | lia | lia]. }
    destruct (greedy_step F n (Z.of_nat f) ltac:(lia) Hex Hfit) as (_ & _ & Hz).
    apply Hz. lia.
Qed.

(** The exact order is what [int_order] computes as long as the doubled
    integer is a binary64 number and the logarithm is exact on it. *)
Lemma exact_below_small (n : Z) : 2 * Z.abs n < 2 ^ 53 -> exact_below ceil_log3 n.
Proof.
  intros Hn m Hm Hle. unfold int_order, min_trits, to_double.
  replace (2 * Z.abs m <? 2 ^ 53) with true by (symmetry; apply Z.ltb_lt; lia).
  reflexivity.
Qed.

Lemma from_int_roundtrip_exact_witness :
  exists s : Trits, Trits_init ceil_log3 (SInt (-5)) None = Ok s /\ integer s = -5.
Proof.
  apply (from_int_roundtrip_exact ceil_log3 (-5)).
  apply exact_below_small. vm_compute. reflexivity.
Defined.

Lemma from_int_minimal_exact_witness :
  exists s : Trits,
    Trits_init ceil_log3 (SInt 14) None = Ok s /\
    Trits_len s = min_trits 14 /\
    (forall ts : list Trit, len ts < min_trits 14 -> pvalue ts <> 14) /\
    hd (TRITS ZERO) (trits s) <> TRITS ZERO.
Proof.
  apply (from_int_minimal_exact ceil_log3 14).
  - discriminate.
  - apply exact_below_small. vm_compute. reflexivity.
Defined.

(** ** What the round trip needs *)

(** The round trip holds at [n] only if [int_order] returns the exact order
    of [n]: any other order, too small or too large, gives a sequence that
    does not decode to [n]. *)
Theorem from_int_needs_exact_order (F : Z -> Z) (n : Z) :
  n <> 0 -> int_order F n <> min_trits n ->
  exists s : Trits, Trits_init F (SInt n) None = Ok s /\ integer s <> n.
Proof.
  intros Hn Hk. rewrite Trits_init_int. eexists. split; [reflexivity | ].
  rewrite integer_finish.
  destruct (min_trits_spec n Hn) as (H1 & H2 & H3).
  destruct (Z_lt_le_dec (int_order F n) (min_trits n)) as [Hlt | Hge].
  - apply from_int_short; [assumption | ]. apply H3. lia.
  - apply from_int_long; [assumption | lia | ].
    apply min_trits_fits; [assumption | lia | lia].
Qed.

Lemma from_int_needs_exact_order_witness :
  exists s : Trits, Trits_init (fun _ => 3) (SInt 2) None = Ok s /\ integer s <> 2.
Proof.
  apply (from_int_needs_exact_order (fun _ => 3) 2); vm_compute; discriminate.
Defined.

(** The invariant of the class: whatever the constructor returns, its
    [integer] is the positional sum of its trits and its [string] is their
    glyphs in order. *)
Theorem constructed_invariant (F : Z -> Z) (src : source) (length : option Z) (s : Trits) :
  Trits_init F src length = Ok s ->
  integer s = pvalue (trits s) /\ string s = join_str (trits s).
Proof.
  intro H. apply Trits_init_finish in H. rewrite H. cbn [trits string Trits_finish].
  split; [apply integer_finish | reflexivity].
Qed.

Lemma constructed_invariant_witness :
  integer (Trits_obj [Tp; Tn; Tn; Tn] (u "+---") 14) = pvalue (trits (Trits_obj [Tp; Tn; Tn; Tn] (u "+---") 14)) /\
  string (Trits_obj [Tp; Tn; Tn; Tn] (u "+---") 14) = join_str (trits (Trits_obj [Tp; Tn; Tn; Tn] (u "+---") 14)).
Proof.
  apply (constructed_invariant ceil_log3 (SInt 14) None). reflexivity.
Defined.

(** * The rest of the two classes *)

(** ** Trits as truth values and as digits *)

Ltac trit_compute :=
  repeat match goal with
  | t : Trit |- _ => trit_cases t
  end;
  vm_compute.

Lemma Trit_logic_and_comm (a b : Trit) : Trit_and a b = Trit_and b a.
Proof. trit_compute; reflexivity. Qed.

Lemma Trit_logic_or_comm (a b : Trit) : Trit_or a b = Trit_or b a.
Proof. trit_compute; reflexivity. Qed.

Lemma Trit_logic_xor_comm (a b : Trit) : Trit_xor a b = Trit_xor b a.
Proof. trit_compute; reflexivity. Qed.

Lemma Trit_de_morgan_and (a b : Trit) :
  Trit_neg (Trit_and a b) = Trit_or (Trit_neg a) (Trit_neg b).
Proof. trit_compute; reflexivity. Qed.

Lemma Trit_de_morgan_or (a b : Trit) :
  Trit_neg (Trit_or a b) = Trit_and (Trit_neg a) (Trit_neg b).
Proof. trit_compute; reflexivity. Qed.

(** On the integers of the trits, [&] is the minimum, [|] the maximum and
    [^] the negated product: the connectives of Kleene's logic. *)
Theorem Trit_logic_by_integers (a b : Trit) :
  Trit_int (Trit_and a b) = Z.min (Trit_int a) (Trit_int b) /\
  Trit_int (Trit_or a b) = Z.max (Trit_int a) (Trit_int b) /\
  Trit_int (Trit_xor a b) = - (Trit_int a * Trit_int b).
Proof. trit_compute; repeat split. Qed.

(** [&] and [|] are commutative, associative and idempotent, absorb and
    distribute over each other, and negation exchanges them (De Morgan);
    negation is an involution, and [~] is negation. *)
Theorem Trit_logic_laws (a b c : Trit) :
  Trit_and a b = Trit_and b a /\
  Trit_or a b = Trit_or b a /\
  Trit_xor a b = Trit_xor b a /\
  Trit_and a (Trit_and b c) = Trit_and (Trit_and a b) c /\
  Trit_or a (Trit_or b c) = Trit_or (Trit_or a b) c /\
  Trit_and a a = a /\
  Trit_or a a = a /\
  Trit_and a (Trit_or a b) = a /\
  Trit_or a (Trit_and a b) = a /\
  Trit_and a (Trit_or b c) = Trit_or (Trit_and a b) (Trit_and a c) /\
  Trit_or a (Trit_and b c) = Trit_and (Trit_or a b) (Trit_or a c) /\
  Trit_neg (Trit_and a b) = Trit_or (Trit_neg a) (Trit_neg b) /\
  Trit_neg (Trit_or a b) = Trit_and (Trit_neg a) (Trit_neg b) /\
  Trit_neg (Trit_neg a) = a /\
  Trit_invert a = Trit_neg a.
Proof. trit_compute; repeat split. Qed.

(** The six comparisons of two trits agree with each other: exactly one of
    [<], [==], [>] holds, [<=] is [<] or [==], [>=] is [>] or [==], [!=] is
    the contrary of [==], and [==], which compares the glyphs, holds exactly
    for the same trit. *)
Theorem Trit_comparisons (a b : Trit) :
  (Trit_lt a b = true /\ Trit_eq a b = false /\ Trit_gt a b = false \/
   Trit_lt a b = false /\ Trit_eq a b = true /\ Trit_gt a b = false \/
   Trit_lt a b = false /\ Trit_eq a b = false /\ Trit_gt a b = true) /\
  Trit_le a b = Trit_lt a b || Trit_eq a b /\
  Trit_ge a b = Trit_gt a b || Trit_eq a b /\
  Trit_ne a b = negb (Trit_eq a b) /\
  (Trit_eq a b = true <-> a = b) /\
  (Trit_lt a b = true <-> Trit_int a < Trit_int b).
Proof.
  split; [trit_compute; tauto | ].
  split; [trit_compute; reflexivity | ].
  split; [trit_compute; reflexivity | ].
  split; [reflexivity | ].
  split; [apply Trit_eq_true | apply Z.ltb_lt].
Qed.

(** Negation, absolute value and truth value, on the integer of a trit:
    [int(-t) = -int(t)], [int(abs(t)) = |int(t)|], and [bool(t)] holds
    exactly when [int(t) = 1]. *)
Theorem Trit_unary_by_integers (t : Trit) :
  Trit_int (Trit_neg t) = - Trit_int t /\
  Trit_int (Trit_abs t) = Z.abs (Trit_int t) /\
  (Trit_bool t = true <-> Trit_int t = 1) /\
  Trit_pos t = t.
Proof.
  trit_compute; repeat split; intro H; try reflexivity; discriminate H.
Qed.

(** What a trit renders or converts to parses back to it: [make(str(t))],
    [make(int(t))] and [make(t)] are all [t]. *)
Theorem Trit_make_roundtrip (t : Trit) :
  Trit_make (VStr (Trit_str t)) = Ok t /\
  Trit_make (VReal (Trit_int t)) = Ok t /\
  Trit_make (VTrit t) = Ok t.
Proof. trit_compute; repeat split. Qed.

(** A Python integer parses to the trit of its sign, and [None] to the zero
    trit: the parse never fails on them. *)
Theorem Trit_make_number (x : Z) :
  exists t : Trit,
    Trit_make (VReal x) = Ok t /\ Trit_int t = Z.sgn x /\
    Trit_make VNone = Ok (TRITS ZERO).
Proof.
  unfold Trit_make.
  destruct (x =? 0) eqn:E0; [ | destruct (x >? 0) eqn:E1];
    eexists; (split; [reflexivity | split; [ | reflexivity]]); cbn; lia.
Qed.

(** ** Negation and absolute value of a sequence *)

Lemma map_neg_neg (ts : list Trit) : map Trit_neg (map Trit_neg ts) = ts.
Proof.
  induction ts as [ | t ts IH]; cbn [map]; [reflexivity | ].
  rewrite IH. f_equal. trit_cases t; reflexivity.
Qed.

Lemma first_nonzero_neg (ts : list Trit) :
  first_nonzero (map Trit_neg ts) = option_map Trit_neg (first_nonzero ts).
Proof.
  induction ts as [ | t ts IH]; cbn [map first_nonzero]; [reflexivity | ].
  rewrite IH. trit_cases t; reflexivity.
Qed.

Lemma Trits_abs_finish (F : Z -> Z) (ts : list Trit) :
  Trits_abs F (Trits_finish ts) =
  Ok (Trits_finish
        match first_nonzero ts with
        | Some t => if Trit_eq t (TRITS NEG) then map Trit_neg ts else ts
        | None => ts
        end).
Proof.
  unfold Trits_abs. cbn [trits Trits_finish].
  rewrite abs_loop_first_nonzero, Trits_neg_finish.
  destruct (first_nonzero ts) as [t | ]; [ | reflexivity].
  destruct (Trit_eq t (TRITS NEG)); reflexivity.
Qed.

(** [-s] has the trits of [s] negated one by one: the same length, the
    opposite decoded integer; negating twice gives [s] back, and [~s] is
    [-s]. *)
Theorem Trits_neg_value (F : Z -> Z) (ts : list Trit) :
  exists r : Trits,
    Trits_neg F (Trits_finish ts) = Ok r /\
    Trits_invert F (Trits_finish ts) = Ok r /\
    Trits_len r = Trits_len (Trits_finish ts) /\
    integer r = - integer (Trits_finish ts) /\
    Trits_neg F r = Ok (Trits_finish ts).
Proof.
  unfold Trits_invert. rewrite Trits_neg_finish. eexists.
  split; [reflexivity | ]. split; [reflexivity | ].
  rewrite Trits_neg_finish, map_neg_neg, !integer_finish, pvalue_neg.
  unfold Trits_len. cbn [trits Trits_finish]. rewrite len_map. auto.
Qed.

(** [abs] is idempotent and even: [abs(abs(s))] and [abs(-s)] are both
    [abs(s)], and the decoded integer of [abs(s)] is never negative. *)
Theorem Trits_abs_idempotent_even (F : Z -> Z) (ts : list Trit) :
  exists r n : Trits,
    Trits_abs F (Trits_finish ts) = Ok r /\
    Trits_abs F r = Ok r /\
    Trits_neg F (Trits_finish ts) = Ok n /\
    Trits_abs F n = Ok r /\
    0 <= integer r.
Proof.
  rewrite Trits_neg_finish, Trits_abs_finish.
  eexists. exists (Trits_finish (map Trit_neg ts)).
  split; [reflexivity | ].
  rewrite !Trits_abs_finish, first_nonzero_neg, integer_finish.
  pose proof (first_nonzero_sign ts) as S.
  destruct (first_nonzero ts) as [t | ] eqn:E.
  - destruct S as [[-> S] | [-> S]]; cbn [Trit_eq glyph_eqb TRITS value option_map Trit_neg].
    + rewrite first_nonzero_neg, E. cbn [option_map Trit_neg Trit_eq glyph_eqb TRITS value].
      rewrite pvalue_neg. repeat split; lia.
    + rewrite E. cbn [Trit_eq glyph_eqb TRITS value]. rewrite map_neg_neg.
      repeat split; lia.
  - cbn [option_map]. rewrite E.
    assert (Hz : map Trit_neg ts = ts).
    { clear S. induction ts as [ | t ts IH]; [reflexivity | ].
      cbn [first_nonzero] in E. cbn [map].
      trit_cases t; cbn in E; try discriminate E.
      rewrite IH by assumption. reflexivity. }
    rewrite Hz. repeat split; lia.
Qed.

(** ** Trit-wise operations on sequences *)

Lemma match_length_pad (F : Z -> Z) (ta tb : list Trit) :
  match_length F (Trits_finish ta) (Trits_finish tb) =
  Ok (Trits_finish (pad_to (Nat.max (List.length ta) (List.length tb)) ta),
      Trits_finish (pad_to (Nat.max (List.length ta) (List.length tb)) tb)).
Proof.
  unfold match_length, Trits_len, of_Trits, pad_to. cbn [trits Trits_finish].
  unfold len at 1 2.
  destruct (Z.of_nat (List.length ta) =? Z.of_nat (List.length tb)) eqn:E.
  - apply Z.eqb_eq in E. apply Nat2Z.inj in E. rewrite E, Nat.max_id, Nat.sub_diag.
    reflexivity.
  - apply Z.eqb_neq in E. unfold len at 1 2.
    destruct (Z.of_nat (List.length ta) <? Z.of_nat (List.length tb)) eqn:E'.
    + apply Z.ltb_lt in E'. rewrite Trits_init_pad by (unfold len; lia). cbn [bind].
      replace (Nat.max (List.length ta) (List.length tb)) with (List.length tb) by lia.
      rewrite Nat.sub_diag. unfold len.
      replace (Z.to_nat (Z.of_nat (List.length tb) - Z.of_nat (List.length ta)))
        with (List.length tb - List.length ta)%nat by lia.
      reflexivity.
    + apply Z.ltb_ge in E'. rewrite Trits_init_pad by (unfold len; lia). cbn [bind].
      replace (Nat.max (List.length ta) (List.length tb)) with (List.length ta) by lia.
      rewrite Nat.sub_diag. unfold len.
      replace (Z.to_nat (Z.of_nat (List.length ta) - Z.of_nat (List.length tb)))
        with (List.length ta - List.length tb)%nat by lia.
      reflexivity.
Qed.

Lemma pad_to_length (n : nat) (ts : list Trit) :
  List.length (pad_to n ts) = Nat.max n (List.length ts).
Proof. unfold pad_to. rewrite length_app, repeat_length. lia. Qed.

Lemma map_combine_map2 (op : Trit -> Trit -> Trit) (la lb : list Trit) :
  map (fun xy => op (fst xy) (snd xy)) (combine la lb) = map2 op la lb.
Proof.
  revert lb. induction la as [ | x la IH]; intros [ | y lb]; cbn [combine map map2 fst snd];
    try reflexivity.
  now rewrite IH.
Qed.

Lemma map2_length (op : Trit -> Trit -> Trit) (la lb : list Trit) :
  List.length la = List.length lb -> List.length (map2 op la lb) = List.length la.
Proof.
  revert lb. induction la as [ | x la IH]; intros [ | y lb] H; try discriminate H;
    cbn [map2 List.length]; [reflexivity | ].
  injection H as H. now rewrite IH.
Qed.

Lemma Trits_zip_with_finish (F : Z -> Z) (op : Trit -> Trit -> Trit) (ta tb : list Trit) :
  Trits_zip_with F op (Trits_finish ta) (Trits_finish tb) =
  Ok (Trits_finish (map2 op (pad_to (Nat.max (List.length ta) (List.length tb)) ta)
                            (pad_to (Nat.max (List.length ta) (List.length tb)) tb))).
Proof.
  unfold Trits_zip_with. rewrite match_length_pad. cbn [bind fst snd trits Trits_finish].
  rewrite Trits_init_of_list, map_combine_map2. reflexivity.
Qed.

Lemma map2_comm (op : Trit -> Trit -> Trit) (la lb : list Trit) :
  (forall x y, op x y = op y x) -> map2 op la lb = map2 op lb la.
Proof.
  intro H. revert lb. induction la as [ | x la IH]; intros [ | y lb]; cbn [map2];
    try reflexivity.
  now rewrite IH, H.
Qed.

Lemma map2_neg (op op' : Trit -> Trit -> Trit) (la lb : list Trit) :
  (forall x y, Trit_neg (op x y) = op' (Trit_neg x) (Trit_neg y)) ->
  map Trit_neg (map2 op la lb) = map2 op' (map Trit_neg la) (map Trit_neg lb).
Proof.
  intro H. revert lb. induction la as [ | x la IH]; intros [ | y lb]; cbn [map2 map];
    try reflexivity.
  now rewrite IH, H.
Qed.

Lemma pad_to_neg (n : nat) (ts : list Trit) :
  pad_to n (map Trit_neg ts) = map Trit_neg (pad_to n ts).
Proof.
  unfold pad_to. rewrite map_app, length_map. f_equal.
  induction (n - List.length ts)%nat as [ | k IH]; cbn [repeat map]; [reflexivity | ].
  now rewrite <- IH.
Qed.

(** [s & t], [s | t] and [s ^ t] have the length of the longer operand;
    the shorter one counts as if zero trits stood on its left, and the
    trits of the result are those of the two operands combined position by
    position. *)
Theorem Trits_logic_positionwise (F : Z -> Z) (ts tt : list Trit) :
  let n := Nat.max (List.length ts) (List.length tt) in
  exists ra ro rx : Trits,
    Trits_and F (Trits_finish ts) (Trits_finish tt) = Ok ra /\
    Trits_or F (Trits_finish ts) (Trits_finish tt) = Ok ro /\
    Trits_xor F (Trits_finish ts) (Trits_finish tt) = Ok rx /\
    trits ra = map2 Trit_and (pad_to n ts) (pad_to n tt) /\
    trits ro = map2 Trit_or (pad_to n ts) (pad_to n tt) /\
    trits rx = map2 Trit_xor (pad_to n ts) (pad_to n tt) /\
    Trits_len ra = Z.max (len ts) (len tt) /\
    Trits_len ro = Z.max (len ts) (len tt) /\
    Trits_len rx = Z.max (len ts) (len tt).
Proof.
  cbv zeta. unfold Trits_and, Trits_or, Trits_xor. rewrite !Trits_zip_with_finish.
  do 3 eexists. do 3 (split; [reflexivity | ]).
  unfold Trits_len, len. cbn [trits Trits_finish].
  rewrite !map2_length by (rewrite !pad_to_length; lia).
  rewrite pad_to_length. repeat split; lia.
Qed.

(** The trit-wise operations are commutative on sequences, also of unequal
    lengths, and negation exchanges [&] and [|] (De Morgan):
    [-(s & t) = (-s) | (-t)] and [-(s | t) = (-s) & (-t)]. *)
Theorem Trits_logic_laws (F : Z -> Z) (ts tt : list Trit) :
  Trits_and F (Trits_finish ts) (Trits_finish tt) =
    Trits_and F (Trits_finish tt) (Trits_finish ts) /\
  Trits_or F (Trits_finish ts) (Trits_finish tt) =
    Trits_or F (Trits_finish tt) (Trits_finish ts) /\
  Trits_xor F (Trits_finish ts) (Trits_finish tt) =
    Trits_xor F (Trits_finish tt) (Trits_finish ts) /\
  (r <- Trits_and F (Trits_finish ts) (Trits_finish tt) ;; Trits_neg F r) =
    (a <- Trits_neg F (Trits_finish ts) ;; b <- Trits_neg F (Trits_finish tt) ;;
     Trits_or F a b) /\
  (r <- Trits_or F (Trits_finish ts) (Trits_finish tt) ;; Trits_neg F r) =
    (a <- Trits_neg F (Trits_finish ts) ;; b <- Trits_neg F (Trits_finish tt) ;;
     Trits_and F a b).
Proof.
  unfold Trits_and, Trits_or, Trits_xor.
  rewrite !Trits_zip_with_finish, !Trits_neg_finish. cbn [bind].
  rewrite !Trits_zip_with_finish, !Trits_neg_finish, !length_map, !pad_to_neg.
  rewrite (Nat.max_comm (List.length tt) (List.length ts)).
  repeat split; f_equal; f_equal.
  - apply map2_comm. intros x y. apply (Trit_logic_and_comm x y).
  - apply map2_comm. intros x y. apply (Trit_logic_or_comm x y).
  - apply map2_comm. intros x y. apply (Trit_logic_xor_comm x y).
  - apply map2_neg. intros x y. apply (Trit_de_morgan_and x y).
  - apply map2_neg. intros x y. apply (Trit_de_morgan_or x y).
Qed.

(** ** Concatenation and repetition *)

Lemma mapM_app (xs ys : list pyvalue) :
  mapM Trit_make (xs ++ ys) =
  (a <- mapM Trit_make xs ;; b <- mapM Trit_make ys ;; Ok (a ++ b)).
Proof.
  induction xs as [ | x xs IH]; cbn [app mapM bind].
  - destruct (mapM Trit_make ys); reflexivity.
  - destruct (Trit_make x) as [t | e]; cbn [bind]; [ | reflexivity].
    rewrite IH. destruct (mapM Trit_make xs) as [a | e]; cbn [bind]; [ | reflexivity].
    destruct (mapM Trit_make ys); reflexivity.
Qed.


Lemma concat_repeat_length {A : Type} (l : list A) (n : nat) :
  List.length (List.concat (repeat l n)) = (List.length l * n)%nat.
Proof.
  induction n as [ | n IH]; cbn [repeat List.concat]; [cbn; lia | ].
  rewrite length_app, IH. lia.
Qed.

Lemma pvalue_repeat (ts : list Trit) (n : nat) :
  pvalue (List.concat (repeat ts n)) * (3 ^ len ts - 1) =
  pvalue ts * (3 ^ (len ts * Z.of_nat n) - 1).
Proof.
  induction n as [ | n IH].
  - cbn [repeat List.concat pvalue]. rewrite Z.mul_0_r. cbn. lia.
  - cbn [repeat List.concat]. rewrite pvalue_app.
    assert (Hl : len (List.concat (repeat ts n)) = len ts * Z.of_nat n).
    { unfold len. rewrite concat_repeat_length. lia. }
    rewrite Hl.
    replace (len ts * Z.of_nat (S n)) with (len ts * Z.of_nat n + len ts) by lia.
    pose proof (len_nonneg ts) as Hn.
    rewrite Z.pow_add_r by lia.
    set (P := 3 ^ (len ts * Z.of_nat n)) in *. set (Q := 3 ^ len ts) in *.
    set (v := pvalue ts) in *. set (w := pvalue (List.concat (repeat ts n))) in *.
    replace ((v * P + w) * (Q - 1)) with (v * P * (Q - 1) + w * (Q - 1)) by ring.
    rewrite IH. ring.
Qed.

(** [s * n] repeats the trits of [s]: [n] times for a positive [n], and
    not at all otherwise, which gives the empty sequence. Its length is
    [len(s) * max(n, 0)], and its decoded integer [v] is the geometric sum
    [v * (3 ^ len(s) - 1) = int(s) * (3 ^ (len(s) * max(n, 0)) - 1)]. *)
Theorem Trits_mul_repeats (F : Z -> Z) (ts : list Trit) (n : Z) :
  exists r : Trits,
    Trits_mul F (Trits_finish ts) n = Ok r /\
    trits r = List.concat (repeat ts (Z.to_nat n)) /\
    Trits_len r = len ts * Z.max n 0 /\
    integer r * (3 ^ len ts - 1) =
      integer (Trits_finish ts) * (3 ^ (len ts * Z.max n 0) - 1) /\
    (n <= 0 -> r = Trits_finish []).
Proof.
  unfold Trits_mul, list_mul. cbn [trits Trits_finish].
  rewrite Trits_init_of_list. cbn [force_length bind].
  eexists. split; [reflexivity | ]. split; [reflexivity | ].
  unfold Trits_len. cbn [trits Trits_finish].
  rewrite !integer_finish, pvalue_repeat.
  replace (Z.of_nat (Z.to_nat n)) with (Z.max n 0) by lia.
  split; [ | split; [reflexivity | ]].
  - unfold len. rewrite concat_repeat_length. lia.
  - intro Hn. replace (Z.to_nat n) with O by lia. reflexivity.
Qed.

(** ** The comparison operators of a sequence *)

Lemma cmp_value (F : Z -> Z) (ts tt : list Trit) :
  exists c : Z,
    cmp F (Trits_finish ts) (Trits_finish tt) = Ok c /\
    (c = -1 /\ pvalue ts < pvalue tt \/
     c = 0 /\ pvalue ts = pvalue tt \/
     c = 1 /\ pvalue tt < pvalue ts).
Proof.
  destruct (match_length_finish F ts tt) as (ta & tb & Hm & Hl & Ha & Hb).
  unfold cmp. rewrite Hm. cbn [bind fst snd trits Trits_finish].
  eexists. split; [reflexivity | ].
  rewrite <- Ha, <- Hb. apply cmp_loop_value. assumption.
Qed.

(** The six comparison operators of two sequences are the comparisons of
    their decoded integers; none of them raises. *)
Theorem Trits_comparisons (F : Z -> Z) (ts tt : list Trit) :
  let a := integer (Trits_finish ts) in
  let b := integer (Trits_finish tt) in
  Trits_lt F (Trits_finish ts) (Trits_finish tt) = Ok (a <? b) /\
  Trits_le F (Trits_finish ts) (Trits_finish tt) = Ok (a <=? b) /\
  Trits_eq F (Trits_finish ts) (Trits_finish tt) = Ok (a =? b) /\
  Trits_ne F (Trits_finish ts) (Trits_finish tt) = Ok (negb (a =? b)) /\
  Trits_gt F (Trits_finish ts) (Trits_finish tt) = Ok (a >? b) /\
  Trits_ge F (Trits_finish ts) (Trits_finish tt) = Ok (a >=? b).
Proof.
  cbv zeta. rewrite !integer_finish.
  unfold Trits_lt, Trits_le, Trits_eq, Trits_ne, Trits_gt, Trits_ge.
  destruct (cmp_value F ts tt) as (c & -> & H). cbn [bind].
  destruct H as [[-> H] | [[-> H] | [-> H]]];
    repeat split; f_equal;
    change (-1 <? 0) with true; change (-1 <=? 0) with true;
    change (-1 =? 0) with false; change (-1 >? 0) with false;
    change (-1 >=? 0) with false;
    change (0 <? 0) with false; change (0 <=? 0) with true;
    change (0 =? 0) with true; change (0 >? 0) with false;
    change (0 >=? 0) with true;
    change (1 <? 0) with false; change (1 <=? 0) with false;
    change (1 =? 0) with false; change (1 >? 0) with true;
    change (1 >=? 0) with true; cbn [negb]; symmetry;
    first [ apply Z.ltb_lt | apply Z.ltb_ge | apply Z.leb_le | apply Z.leb_gt
          | apply Z.eqb_eq | apply Z.eqb_neq
          | (rewrite Z.gtb_ltb; first [apply Z.ltb_lt | apply Z.ltb_ge])
          | (rewrite Z.geb_leb; first [apply Z.leb_le | apply Z.leb_gt])
          | (apply negb_true_iff, Z.eqb_neq)
          | (apply negb_false_iff, Z.eqb_eq) ]; lia.
Qed.

Lemma join_str_chars (ts : list Trit) : join_str ts = map glyph_char ts.
Proof.
  unfold join_str. induction ts as [ | t ts IH]; cbn [map List.concat]; [reflexivity | ].
  rewrite IH. trit_cases t; reflexivity.
Qed.

(** [==] looks through zero trits on the left: a sequence and the same
    sequence with [n > 0] zero trits before it are equal, although their
    texts, which is what [__hash__] hashes, differ. *)
Theorem Trits_eq_ignores_leading_zeros (F : Z -> Z) (ts : list Trit) (n : nat) :
  (0 < n)%nat ->
  Trits_eq F (Trits_finish (repeat (TRITS ZERO) n ++ ts)) (Trits_finish ts) = Ok true /\
  string (Trits_finish (repeat (TRITS ZERO) n ++ ts)) <> string (Trits_finish ts).
Proof.
  intro Hn. split.
  - unfold Trits_eq.
    destruct (cmp_value F (repeat (TRITS ZERO) n ++ ts) ts) as (c & -> & H).
    cbn [bind]. rewrite pvalue_pad in H.
    destruct H as [[-> H] | [[-> H] | [-> H]]]; [lia | reflexivity | lia].
  - cbn [string Trits_finish]. rewrite !join_str_chars. intro H.
    apply (f_equal (@List.length Z)) in H.
    rewrite !length_map, length_app, repeat_length in H. lia.
Qed.

Lemma Trits_eq_ignores_leading_zeros_witness :
  Trits_eq ceil_log3 (Trits_finish (repeat (TRITS ZERO) 2 ++ [Tp; Tn])) (Trits_finish [Tp; Tn]) = Ok true /\
  string (Trits_finish (repeat (TRITS ZERO) 2 ++ [Tp; Tn])) <> string (Trits_finish [Tp; Tn]).
Proof.
  apply (Trits_eq_ignores_leading_zeros ceil_log3 [Tp; Tn] 2). lia.
Defined.

(** ** Indexing and slicing *)

(** [s[i]] is the trit at position [i] for [0 <= i < len(s)], the trit at
    [len(s) + i] for [-len(s) <= i < 0], and raises [IndexError] for any
    other [i], in particular for every index of the empty sequence. *)
Theorem Trits_getitem_index (F : Z -> Z) (ts : list Trit) (i : Z) :
  Trits_getitem F (Trits_finish ts) (KInt i) =
  if (- len ts <=? i) && (i <? len ts)
  then Ok (ITrit (nth (Z.to_nat (i mod len ts)) ts (TRITS ZERO)))
  else Raise IndexError.
Proof.
  unfold Trits_getitem, list_index. cbn [trits Trits_finish].
  pose proof (len_nonneg ts) as Hn.
  destruct (- len ts <=? i) eqn:E1; destruct (i <? len ts) eqn:E2; cbn [andb].
  - apply Z.leb_le in E1. apply Z.ltb_lt in E2.
    set (j := if i <? 0 then i + len ts else i).
    assert (Hj : 0 <= j < len ts) by (unfold j; destruct (i <? 0) eqn:E; lia).
    assert (Hm : i mod len ts = j).
    { unfold j. destruct (i <? 0) eqn:E.
      - rewrite <- (Z.mod_small (i + len ts) (len ts)) by lia.
        rewrite <- (Z.mul_1_l (len ts)) at 2. rewrite Z.mod_add by lia. reflexivity.
      - apply Z.mod_small. lia. }
    replace ((j <? 0) || (len ts <=? j)) with false by (symmetry; lia).
    rewrite Hm.
    rewrite (nth_error_nth' ts (TRITS ZERO)) by (unfold len in Hj; lia).
    reflexivity.
  - apply Z.ltb_ge in E2.
    replace (i <? 0) with false by (symmetry; lia).
    replace ((i <? 0) || (len ts <=? i)) with true by (symmetry; lia).
    reflexivity.
  - apply Z.leb_gt in E1.
    replace (i <? 0) with true by (symmetry; lia).
    replace ((i + len ts <? 0) || (len ts <=? i + len ts)) with true by (symmetry; lia).
    reflexivity.
  - lia.
Qed.

Lemma skipn_nth_cons {A : Type} (d : A) (l : list A) (a : nat) :
  (a < List.length l)%nat -> skipn a l = nth a l d :: skipn (S a) l.
Proof.
  revert a. induction l as [ | x l IH]; intros a H; [cbn in H; lia | ].
  destruct a as [ | a]; [reflexivity | ].
  cbn [List.length] in H. cbn [skipn nth]. rewrite IH by lia. reflexivity.
Qed.

Lemma map_nth_range {A : Type} (d : A) (l : list A) (a m : nat) :
  (a + m <= List.length l)%nat ->
  map (fun i => nth (a + i) l d) (seq 0 m) = firstn m (skipn a l).
Proof.
  revert a. induction m as [ | m IH]; intros a H; [reflexivity | ].
  rewrite (skipn_nth_cons d) by lia. cbn [firstn seq map].
  rewrite Nat.add_0_r. f_equal.
  rewrite <- seq_shift, map_map, <- IH by lia.
  apply map_ext. intro i. f_equal. lia.
Qed.

(** The slice [l[a:b]] with no step, for bounds already inside the list. *)
Lemma list_slice_range {A : Type} (d : A) (l : list A) (a b : Z) :
  0 <= a <= len l -> 0 <= b <= len l ->
  map (fun i => nth (Z.to_nat (a + Z.of_nat i * 1)) l d)
      (seq 0 (Z.to_nat (if a <? b then (b - a - 1) / 1 + 1 else 0))) =
  firstn (Z.to_nat (b - a)) (skipn (Z.to_nat a) l).
Proof.
  intros Ha Hb. unfold len in *.
  replace (Z.to_nat (if a <? b then (b - a - 1) / 1 + 1 else 0)) with (Z.to_nat (b - a)).
  - rewrite <- map_nth_range with (d := d) by lia.
    apply map_ext. intro i. f_equal. lia.
  - destruct (a <? b) eqn:E; [rewrite Z.div_1_r | ]; lia.
Qed.

Lemma adjust_bound_range (n b : Z) : 0 <= n -> 0 <= adjust_bound n 0 n b <= n.
Proof.
  intro Hn. unfold adjust_bound.
  destruct (b <? 0); repeat match goal with |- context [if ?c then _ else _] => destruct c eqn:? end; lia.
Qed.

(** [s[:k]] and [s[k:]] cut [s] in two, wherever [k] falls (a negative [k]
    counts from the right, and a [k] outside the sequence leaves one part
    empty): the two parts put together are [s], and [int(s)] is
    [int(s[:k]) * 3 ^ len(s[k:]) + int(s[k:])]. *)
Theorem Trits_slice_split (F : Z -> Z) (ts : list Trit) (k : Z) :
  exists a b : Trits,
    Trits_getitem F (Trits_finish ts) (KSlice (Slice None (Some k) None)) = Ok (ITrits a) /\
    Trits_getitem F (Trits_finish ts) (KSlice (Slice (Some k) None None)) = Ok (ITrits b) /\
    trits a ++ trits b = ts /\
    integer (Trits_finish ts) = integer a * 3 ^ Trits_len b + integer b.
Proof.
  pose proof (len_nonneg ts) as Hn.
  pose proof (adjust_bound_range (len ts) k Hn) as Hk.
  unfold Trits_getitem, list_slice. cbn [trits Trits_finish slice_start slice_stop slice_step].
  change (1 =? 0) with false. change (1 <? 0) with false. cbv iota.
  rewrite (list_slice_range (TRITS ZERO) ts 0 (adjust_bound (len ts) 0 (len ts) k)) by lia.
  rewrite (list_slice_range (TRITS ZERO) ts (adjust_bound (len ts) 0 (len ts) k) (len ts)) by lia.
  set (c := adjust_bound (len ts) 0 (len ts) k) in *.
  cbn [bind]. rewrite !Trits_init_of_list. cbn [force_length bind lift_exn].
  do 2 eexists. do 2 (split; [reflexivity | ]).
  unfold Trits_len. cbn [trits Trits_finish Z.to_nat skipn].
  rewrite Z.sub_0_r.
  assert (Hs : firstn (Z.to_nat (len ts - c)) (skipn (Z.to_nat c) ts) = skipn (Z.to_nat c) ts).
  { apply firstn_all2. rewrite length_skipn. unfold len in *. lia. }
  rewrite Hs, firstn_skipn. split; [reflexivity | ].
  rewrite !integer_finish, <- pvalue_app, firstn_skipn. reflexivity.
Qed.

Lemma map_nth_rev {A : Type} (d : A) (l : list A) :
  map (fun i => nth (List.length l - 1 - i) l d) (seq 0 (List.length l)) = rev l.
Proof.
  apply (nth_ext _ _ d d).
  - rewrite length_map, length_seq, length_rev. reflexivity.
  - intros i Hi. rewrite length_map, length_seq in Hi.
    rewrite (nth_indep _ d (nth (List.length l - 1 - 0) l d))
      by (rewrite length_map, length_seq; assumption).
    rewrite (map_nth (fun i => nth (List.length l - 1 - i) l d)
                     (seq 0 (List.length l)) 0%nat i).
    rewrite seq_nth by assumption. rewrite rev_nth by assumption.
    f_equal. lia.
Qed.

(** [s[:]] is a copy of [s], [s[::-1]] is [s] with its trits in the
    contrary order, and a slice of step 0 raises. *)
Theorem Trits_slice_copy_reverse (F : Z -> Z) (ts : list Trit) :
  Trits_getitem F (Trits_finish ts) (KSlice (Slice None None None)) =
    Ok (ITrits (Trits_finish ts)) /\
  Trits_getitem F (Trits_finish ts) (KSlice (Slice None None (Some (-1)))) =
    Ok (ITrits (Trits_finish (rev ts))) /\
  (forall a b, Trits_getitem F (Trits_finish ts) (KSlice (Slice a b (Some 0))) =
               Raise SliceStepZero).
Proof.
  pose proof (len_nonneg ts) as Hn.
  unfold Trits_getitem, list_slice. cbn [trits Trits_finish slice_start slice_stop slice_step].
  split; [ | split; [ | reflexivity]].
  - change (1 =? 0) with false. change (1 <? 0) with false. cbv iota.
    rewrite (list_slice_range (TRITS ZERO) ts 0 (len ts)) by lia.
    rewrite Z.sub_0_r. cbn [Z.to_nat skipn].
    rewrite firstn_all2 by (unfold len; lia).
    cbn [bind]. rewrite Trits_init_of_list. reflexivity.
  - change (-1 =? 0) with false. change (-1 <? 0) with true. cbv iota.
    replace (Z.to_nat (if -1 <? len ts - 1 then (len ts - 1 - -1 - 1) / - -1 + 1 else 0))
      with (List.length ts).
    + rewrite <- (map_nth_rev (TRITS ZERO) ts).
      replace (map (fun i => nth (Z.to_nat (len ts - 1 + Z.of_nat i * -1)) ts (TRITS ZERO))
                   (seq 0 (List.length ts)))
        with (map (fun i => nth (List.length ts - 1 - i) ts (TRITS ZERO))
                  (seq 0 (List.length ts))).
      * cbn [bind]. rewrite Trits_init_of_list. reflexivity.
      * apply map_ext_in. intros i Hi. apply in_seq in Hi. f_equal. unfold len. lia.
    + change (- -1) with 1. rewrite Z.div_1_r. unfold len.
      destruct (-1 <? Z.of_nat (List.length ts) - 1) eqn:E; lia.
Qed.

(** ** Membership *)

Lemma startswith_spec (w s : pystr) :
  startswith w s = true <-> exists suf, s = w ++ suf.
Proof.
  revert s. induction w as [ | c w IH]; intro s; cbn [startswith].
  - split; [intros _; now exists s | reflexivity].
  - destruct s as [ | d s].
    + split; [discriminate | intros [suf H]; discriminate H].
    + rewrite andb_true_iff, Z.eqb_eq, IH. split.
      * intros [-> [suf ->]]. now exists suf.
      * intros [suf H]. injection H as -> ->. split; [reflexivity | now exists suf].
Qed.

(** [w in s] holds exactly when [w] stands somewhere inside [s]. *)
Lemma str_contains_spec (w s : pystr) :
  str_contains w s = true <-> exists pre suf, s = pre ++ w ++ suf.
Proof.
  induction s as [ | d s IH]; cbn [str_contains]; rewrite orb_true_iff, startswith_spec.
  - split.
    + intros [[suf H] | H]; [ | discriminate H]. now exists [], suf.
    + intros (pre & suf & H). left.
      destruct pre; [now exists suf | discriminate H].
  - rewrite IH. split.
    + intros [[suf H] | (pre & suf & H)].
      * now exists [], suf.
      * exists (d :: pre), suf. now rewrite H.
    + intros (pre & suf & H). destruct pre as [ | p pre].
      * left. now exists suf.
      * right. injection H as -> ->. now exists pre, suf.
Qed.

Lemma glyph_char_inj (a b : Trit) : glyph_char a = glyph_char b -> a = b.
Proof. trit_cases a; trit_cases b; cbn; intro H; try reflexivity; discriminate H. Qed.

Lemma map_glyph_char_inj (la lb : list Trit) :
  map glyph_char la = map glyph_char lb -> la = lb.
Proof.
  revert lb. induction la as [ | a la IH]; intros [ | b lb] H; try discriminate H;
    [reflexivity | ].
  injection H as H1 H2. f_equal; [now apply glyph_char_inj | now apply IH].
Qed.

(** [t in s] for a trit holds exactly when [t] is one of the trits of [s];
    [str(w) in s] for a sequence [w] holds exactly when the trits of [w]
    stand side by side somewhere in [s]; so the probe of a glyph agrees with
    the probe of its trit, and the empty text is in every sequence, also in
    the empty one. *)
Theorem Trits_contains_spec (ts : list Trit) :
  (forall t, Trits_contains (Trits_finish ts) (PTrit t) = true <-> In t ts) /\
  (forall w, Trits_contains (Trits_finish ts) (PText (string (Trits_finish w))) = true <->
             exists pre suf, ts = pre ++ w ++ suf) /\
  (forall t, Trits_contains (Trits_finish ts) (PText (Trit_str t)) =
             Trits_contains (Trits_finish ts) (PTrit t)) /\
  Trits_contains (Trits_finish ts) (PText []) = true.
Proof.
  assert (H1 : forall t, Trits_contains (Trits_finish ts) (PTrit t) = true <-> In t ts).
  { intro t. cbn [Trits_contains trits Trits_finish]. rewrite existsb_exists. split.
    - intros (x & Hx & E). apply Trit_eq_true in E. now subst.
    - intro H. exists t. split; [assumption | now apply Trit_eq_true]. }
  assert (H2 : forall w, Trits_contains (Trits_finish ts) (PText (string (Trits_finish w))) = true <->
                         exists pre suf, ts = pre ++ w ++ suf).
  { intro w. cbn [Trits_contains string Trits_finish].
    rewrite str_contains_spec, !join_str_chars. split.
    - intros (pre & suf & H).
      apply map_eq_app in H as (pre' & rest & -> & <- & H).
      apply map_eq_app in H as (w' & suf' & -> & Hw & <-).
      apply map_glyph_char_inj in Hw. subst w'. now exists pre', suf'.
    - intros (pre & suf & ->). exists (map glyph_char pre), (map glyph_char suf).
      now rewrite !map_app. }
  split; [exact H1 | split; [exact H2 | split]].
  - intro t.
    assert (E : Trit_str t = string (Trits_finish [t])).
    { cbn [string Trits_finish]. unfold join_str. cbn. now rewrite app_nil_r. }
    apply eq_true_iff_eq. rewrite E, H2, H1. split.
    + intros (pre & suf & ->). apply in_or_app. right. now left.
    + intro H. apply in_split in H as (pre & suf & ->). now exists pre, suf.
  - cbn [Trits_contains string Trits_finish]. destruct (join_str ts); reflexivity.
Qed.

(** ** The constructor on texts and on iterables *)

Lemma Trit_make_glyph_char (t : Trit) : Trit_make (VStr [glyph_char t]) = Ok t.
Proof. trit_cases t; reflexivity. Qed.

Lemma mapM_chars (ts : list Trit) :
  mapM Trit_make (map (fun c => VStr [c]) (map glyph_char ts)) = Ok ts.
Proof.
  induction ts as [ | t ts IH]; cbn [map mapM]; [reflexivity | ].
  rewrite Trit_make_glyph_char, IH. reflexivity.
Qed.

(** The text of a sequence parses back to the sequence, and so does the
    sequence itself given as the source: [Trits(str(s))] and [Trits(s)] are
    both [s]. *)
Theorem Trits_text_roundtrip (F : Z -> Z) (ts : list Trit) :
  Trits_init F (of_str (string (Trits_finish ts))) None = Ok (Trits_finish ts) /\
  Trits_init F (of_Trits (Trits_finish ts)) None = Ok (Trits_finish ts).
Proof.
  split.
  - cbn [string Trits_finish]. rewrite join_str_chars.
    unfold Trits_init, of_str. rewrite mapM_chars. reflexivity.
  - unfold of_Trits. cbn [trits Trits_finish]. rewrite Trits_init_of_list. reflexivity.
Qed.

Lemma Trit_make_space (c : Z) : isspace c = true -> Trit_make (VStr [c]) = Ok (TRITS ZERO).
Proof.
  intro H. unfold Trit_make. cbv zeta.
  assert (E : strip [c] = []).
  { unfold strip, rstrip. cbn [lstrip]. rewrite H. reflexivity. }
  rewrite E. reflexivity.
Qed.

(** A text source is read character by character, and a white-space
    character parses, once trimmed, as the empty spelling of zero: a text
    of white space only gives as many zero trits as it has characters. *)
Theorem Trits_of_blank_text (F : Z -> Z) (w : pystr) :
  blank w = true ->
  Trits_init F (of_str w) None = Ok (Trits_finish (repeat (TRITS ZERO) (List.length w))).
Proof.
  intro H. unfold Trits_init, of_str.
  assert (E : mapM Trit_make (map (fun c => VStr [c]) w) = Ok (repeat (TRITS ZERO) (List.length w))).
  { induction w as [ | c w IH]; [reflexivity | ].
    cbn [blank forallb] in H. apply andb_true_iff in H as [Hc Hw].
    cbn [map mapM List.length repeat]. rewrite Trit_make_space, IH by assumption.
    reflexivity. }
  rewrite E. reflexivity.
Qed.

Lemma Trits_of_blank_text_witness :
  Trits_init ceil_log3 (of_str [32; 9; 10]) None =
  Ok (Trits_finish (repeat (TRITS ZERO) (List.length [32; 9; 10]))).
Proof.
  apply (Trits_of_blank_text ceil_log3 [32; 9; 10]). reflexivity.
Defined.

(** The constructor fails on the first element that does not parse, with
    the error of that element, whatever follows it and whatever length is
    requested. *)
Theorem Trits_init_first_failure
  (F : Z -> Z) (good rest : list pyvalue) (bad : pyvalue) (e : exn) (length : option Z) :
  parses (SIter good) = true ->
  Trit_make bad = Raise e ->
  Trits_init F (SIter (good ++ bad :: rest)) length = Raise e.
Proof.
  intros Hg Hb. unfold Trits_init.
  destruct (mapM_parses good Hg) as [ts Hts].
  rewrite mapM_app, Hts. cbn [bind mapM]. rewrite Hb. reflexivity.
Qed.

Lemma Trits_init_first_failure_witness :
  Trits_init ceil_log3 (SIter ([VStr (u "+"); VNone] ++ VStr (u "x") :: [VStr (u "y")])) (Some (-3)) =
  Raise (ValueError (FailedToParse (VStr (u "x")))).
Proof.
  apply (Trits_init_first_failure ceil_log3 [VStr (u "+"); VNone] [VStr (u "y")]
           (VStr (u "x")) (ValueError (FailedToParse (VStr (u "x")))) (Some (-3)));
    reflexivity.
Defined.

Lemma mapM_Forall2 (xs : list pyvalue) (ts : list Trit) :
  mapM Trit_make xs = Ok ts -> Forall2 (fun x t => Trit_make x = Ok t) xs ts.
Proof.
  revert ts. induction xs as [ | x xs IH]; intros ts H; cbn [mapM] in H.
  - injection H as <-. constructor.
  - destruct (Trit_make x) as [t | ] eqn:E; cbn [bind] in H; [ | discriminate H].
    destruct (mapM Trit_make xs) as [ts' | ]; cbn [bind] in H; [ | discriminate H].
    injection H as <-. constructor; auto.
Qed.

(** A sequence built from an iterable with no length has one trit for each
    element, in order: the trit the element parses to. *)
Theorem Trits_init_elementwise (F : Z -> Z) (xs : list pyvalue) (s : Trits) :
  Trits_init F (SIter xs) None = Ok s ->
  Forall2 (fun x t => Trit_make x = Ok t) xs (trits s) /\ Trits_len s = len xs.
Proof.
  unfold Trits_init. destruct (mapM Trit_make xs) as [ts | ] eqn:E; cbn [bind force_length];
    [ | discriminate].
  intro H. injection H as <-. cbn [trits Trits_finish].
  apply mapM_Forall2 in E. split; [assumption | ].
  unfold Trits_len, len. cbn [trits Trits_finish].
  now rewrite (Forall2_length E).
Qed.

Lemma Trits_init_elementwise_witness :
  Forall2 (fun x t => Trit_make x = Ok t)
          [VStr (u "-1"); VReal 7; VNone]
          (trits (Trits_obj [Tn; Tp; T_] (u "-+0") (-6))) /\
  Trits_len (Trits_obj [Tn; Tp; T_] (u "-+0") (-6)) = len [VStr (u "-1"); VReal 7; VNone].
Proof.
  apply (Trits_init_elementwise ceil_log3 [VStr (u "-1"); VReal 7; VNone]). reflexivity.
Defined.

(** ** A requested length of at least one *)

Lemma force_length_positive (ts : list Trit) (L : Z) :
  0 < L ->
  exists ts' : list Trit,
    force_length ts (Some L) = Ok ts' /\
    len ts' = L /\
    ts' = skipn (List.length (pad_to (Z.to_nat L) ts) - Z.to_nat L) (pad_to (Z.to_nat L) ts) /\
    (pvalue ts' - pvalue ts) mod 3 ^ L = 0.
Proof.
  intro HL. pose proof (len_nonneg ts) as Hn. unfold force_length, pad_to.
  replace (L <? 0) with false by (symmetry; apply Z.ltb_ge; lia).
  rewrite length_app, repeat_length.
  destruct (len ts <? L) eqn:E1.
  - apply Z.ltb_lt in E1. eexists. split; [reflexivity | ].
    rewrite len_app, len_repeat, pvalue_pad, Z.sub_diag. unfold len in *.
    replace (Z.to_nat (L - Z.of_nat (List.length ts)))
      with (Z.to_nat L - List.length ts)%nat by lia.
    replace (Z.to_nat L - List.length ts + List.length ts - Z.to_nat L)%nat with O by lia.
    split; [lia | split; [reflexivity | ]].
    apply Z.mod_0_l. pose proof (pow3_pos L). lia.
  - apply Z.ltb_ge in E1. destruct (len ts >? L) eqn:E2.
    + apply Z.gtb_lt in E2. unfold slice_from.
      replace (- L <? 0) with true by (symmetry; apply Z.ltb_lt; lia).
      replace (Z.max (- L + len ts) 0) with (len ts - L) by lia.
      eexists. split; [reflexivity | ].
      assert (Hlen : len (skipn (Z.to_nat (len ts - L)) ts) = L).
      { unfold len in *. rewrite length_skipn. lia. }
      split; [exact Hlen | ]. unfold len in E1, E2, Hn.
      replace (Z.to_nat L - List.length ts)%nat with O by lia. cbn [repeat app].
      replace (0 + List.length ts - Z.to_nat L)%nat with (Z.to_nat (len ts - L))
        by (unfold len; lia).
      split; [reflexivity | ].
      rewrite (skipn_value ts (Z.to_nat (len ts - L))) at 1. rewrite Hlen.
      match goal with |- (?a - (?b * ?c + ?a)) mod _ = 0 =>
        replace (a - (b * c + a)) with ((- b) * c) by lia end.
      apply Z.mod_mul. pose proof (pow3_pos L). lia.
    + assert (L = len ts) by lia. subst L. eexists. split; [reflexivity | ].
      unfold len. rewrite Nat2Z.id, Nat.sub_diag. cbn [repeat app].
      replace (0 + List.length ts - List.length ts)%nat with O by lia.
      rewrite Z.sub_diag. cbn [skipn].
      split; [reflexivity | split; [reflexivity | ]].
      apply Z.mod_0_l. pose proof (pow3_pos (len ts)). unfold len in *. lia.
Qed.

(** With a requested length [L >= 1] the constructor returns exactly [L]
    trits, whatever the source: the [L] rightmost trits of what the source
    gives, with zero trits on the left where it gives fewer; and the
    decoded integer is that of the sequence built with no length, up to a
    multiple of [3 ^ L]. *)
Theorem Trits_init_forced_length (F : Z -> Z) (src : source) (L : Z) (s0 : Trits) :
  0 < L ->
  Trits_init F src None = Ok s0 ->
  exists s : Trits,
    Trits_init F src (Some L) = Ok s /\
    Trits_len s = L /\
    trits s = skipn (List.length (pad_to (Z.to_nat L) (trits s0)) - Z.to_nat L)
                    (pad_to (Z.to_nat L) (trits s0)) /\
    (integer s - integer s0) mod 3 ^ L = 0.
Proof.
  intros HL H0. unfold Trits_init in *.
  destruct (match src with SInt n => _ | SNone => _ | SIter xs => _ end) as [ts0 | ];
    cbn [bind force_length] in *; [ | discriminate H0].
  injection H0 as <-.
  destruct (force_length_positive ts0 L HL) as (ts' & Hf & Hl & Hs & Hv).
  unfold force_length in Hf. rewrite Hf. cbn [bind].
  eexists. split; [reflexivity | ].
  unfold Trits_len. cbn [trits Trits_finish]. rewrite !integer_finish. auto.
Qed.

Lemma Trits_init_forced_length_witness :
  exists s : Trits,
    Trits_init ceil_log3 (SInt 14) (Some 2) = Ok s /\
    Trits_len s = 2 /\
    trits s = skipn (List.length (pad_to (Z.to_nat 2) (trits (Trits_obj [Tp; Tn; Tn; Tn] (u "+---") 14))) - Z.to_nat 2)
                    (pad_to (Z.to_nat 2) (trits (Trits_obj [Tp; Tn; Tn; Tn] (u "+---") 14))) /\
    (integer s - integer (Trits_obj [Tp; Tn; Tn; Tn] (u "+---") 14)) mod 3 ^ 2 = 0.
Proof.
  apply (Trits_init_forced_length ceil_log3 (SInt 14) 2); reflexivity.
Defined.
